(** * AITutor (Eduverse / ClassMind): ingestion, retrieval and settings

    A shallow embedding of the parts of the repository that carry behaviour:

    - [frontend/src/pages/SettingsPage.jsx]: the React state of the
      settings page and its event handlers, over JavaScript numbers
      (doubles) and [parseInt];
    - [frontend/src/context/AuthContext.jsx] and the sidebar of the
      dashboard layout;
    - [genai_pitch_deck.md] (architecture part): the Python listings of
      [process_pdf] and [process_video], of the indexing workflow
      ([download_node] ... [embed_node], the LangGraph edge table and the
      two [ainvoke] calls), of [EduverseVectorStore], of
      [extract_citations] and of the [/chat/query] endpoint.  Python is
      CPython 3.11: [str] is a sequence of Unicode characters, [\d] and
      [int] take the decimal digits of Unicode 14.0, [int] refuses more
      than 4300 digits, and a set iterates in an order of its own.

    External collaborators (the language model chain, Google Drive, the
    vision model, the text splitter, the embedding model, the ranking of
    the vector database) are section variables: nothing is assumed about
    what they return beyond their type.

    The repository has no job submission code and no chunker of its own,
    and of the vector database it has the calls only; modules [JobTable]
    and [Chunker], and the delete and the retrieval of [VectorStore], model
    them from the specification and say so at each definition. *)

From Stdlib Require Import ZArith QArith Ascii String List Lia Bool.
From Stdlib Require DecimalString DecimalZ DecimalPos.
From Equations Require Import Equations.
From stdpp Require Import gmap strings list fin_maps.

Local Open Scope string_scope.
Local Open Scope list_scope.
Local Open Scope Z_scope.

(** ** Text

    A [string] holds text in UTF-8, one [ascii] per byte, as a string
    literal of this file does.  A Python [str] and a JavaScript string are
    sequences of Unicode characters; the functions below give the
    characters of a [string]. *)

Module Utf8.

Definition byte (c : ascii) : Z := Z.of_nat (nat_of_ascii c).

Definition is_continuation (c : ascii) : bool :=
  (128 <=? byte c) && (byte c <? 192).

(** The next [k] continuation bytes of [s], their six payload bits each
    appended to [acc]: the code point, the bytes read and the rest. *)
Fixpoint continuation (k : nat) (acc : Z) (s : string) : option (Z * string * string) :=
  match k with
  | O => Some (acc, "", s)
  | S k' =>
      match s with
      | String b r =>
          if is_continuation b then
            match continuation k' (acc * 64 + (byte b - 128)) r with
            | Some (cp, bs, rest) => Some (cp, String b bs, rest)
            | None => None
            end
          else None
      | EmptyString => None
      end
  end.

(** A sequence with [k] continuation bytes is well formed when its code
    point needs that many and is a Unicode scalar value. *)
Definition scalar_value (k : nat) (cp : Z) : bool :=
  match k with
  | 0%nat => true
  | 1%nat => 128 <=? cp
  | 2%nat => (2048 <=? cp) && negb ((55296 <=? cp) && (cp <? 57344))
  | _ => (65536 <=? cp) && (cp <? 1114112)
  end.

(** The first character of [s]: its code point, its bytes and the rest of
    [s].  A byte that starts no well-formed sequence encodes no character;
    it is taken alone and numbered from U+DC80, outside every class of
    characters used below. *)
Definition uncons (s : string) : option (Z * string * string) :=
  match s with
  | EmptyString => None
  | String b r =>
      let n := byte b in
      let lead :=
        if n <? 128 then Some (0%nat, n)
        else if n <? 192 then None
        else if n <? 224 then Some (1%nat, n - 192)
        else if n <? 240 then Some (2%nat, n - 224)
        else if n <? 248 then Some (3%nat, n - 240)
        else None in
      let single := Some (56320 + n, String b "", r) in
      match lead with
      | Some (k, bits) =>
          match continuation k bits r with
          | Some (cp, bs, rest) =>
              if scalar_value k cp then Some (cp, String b bs, rest) else single
          | None => single
          end
      | None => single
      end
  end.

(** The characters of [s], each with its bytes.  Every character takes at
    least one byte, so the length of [s] is fuel enough. *)
Fixpoint chars_fuel (fuel : nat) (s : string) : list (Z * string) :=
  match fuel with
  | O => []
  | S f =>
      match uncons s with
      | Some (cp, bs, rest) => (cp, bs) :: chars_fuel f rest
      | None => []
      end
  end.

Definition chars (s : string) : list (Z * string) := chars_fuel (String.length s) s.

Definition code_points (s : string) : list Z := map fst (chars s).

(** The first [n] characters of [s]. *)
Definition take_chars (n : nat) (s : string) : string :=
  fold_right (fun c acc => String.append (snd c) acc) "" (take n (chars s)).

End Utf8.

(** ** JavaScript numbers and [parseInt] *)

Module JS.

(** The numbers the settings page computes with: [NaN], the integers a
    double holds, minus zero and the two infinities.  [Int z] is the double
    of value [z]; every operation below rounds its exact result to the
    nearest double, ties to even, as IEEE 754 binary64 does, so only
    representable integers arise. *)
Inductive number : Type :=
| NaN : number
| Int (z : Z) : number
| NegZero : number
| Infinity (negative : bool) : number.

(** The integer nearest to [n >= 0] with a 53-bit significand, ties to the
    even significand. *)
Definition round53 (n : Z) : Z :=
  if n <? 2 ^ 53 then n
  else
    let e := Z.log2 n - 52 in
    let q := n / 2 ^ e in
    let r := n mod 2 ^ e in
    let half := 2 ^ (e - 1) in
    let q' := if (half <? r) || ((r =? half) && Z.odd q) then q + 1 else q in
    q' * 2 ^ e.

(** The Number value for the mathematical integer [z]; a magnitude that
    rounds to 2^1024 or more is an infinity. *)
Definition of_Z (z : Z) : number :=
  let m := round53 (Z.abs z) in
  if 2 ^ 1024 <=? m then Infinity (z <? 0) else Int (Z.sgn z * m).

(** [-a] *)
Definition negate (a : number) : number :=
  match a with
  | NaN => NaN
  | Int z => if z =? 0 then NegZero else Int (- z)
  | NegZero => Int 0
  | Infinity s => Infinity (negb s)
  end.

(** [a + b] and [a - b] *)
Definition plus (a b : number) : number :=
  match a, b with
  | NaN, _ | _, NaN => NaN
  | Infinity s, Infinity t => if Bool.eqb s t then Infinity s else NaN
  | Infinity s, _ | _, Infinity s => Infinity s
  | NegZero, x | x, NegZero => x
  | Int x, Int y => of_Z (x + y)
  end.

Definition minus (a b : number) : number := plus a (negate b).

(** Where a number lies on the extended line: below, among or above the
    finite values, and its value there.  [NaN] lies nowhere. *)
Definition position (a : number) : option (Z * Z) :=
  match a with
  | NaN => None
  | Int z => Some (0, z)
  | NegZero => Some (0, 0)
  | Infinity true => Some (-1, 0)
  | Infinity false => Some (1, 0)
  end.

(** [a < b] and [a >= b]: false as soon as one side is [NaN]. *)
Definition lt (a b : number) : bool :=
  match position a, position b with
  | Some (c, x), Some (d, y) => (c <? d) || ((c =? d) && (x <? y))
  | _, _ => false
  end.

Definition ge (a b : number) : bool :=
  match position a, position b with
  | Some _, Some _ => negb (lt a b)
  | _, _ => false
  end.

(** [Math.max(a, b)]: [NaN] as soon as one argument is [NaN]; plus zero is
    larger than minus zero. *)
Definition max (a b : number) : number :=
  match position a, position b with
  | Some _, Some _ =>
      if lt a b then b
      else if lt b a then a
      else match a with NegZero => b | _ => a end
  | _, _ => NaN
  end.

(** ToBoolean on a number: [NaN] and the zeros are falsy. *)
Definition truthy (a : number) : bool :=
  match a with
  | NaN | NegZero => false
  | Int z => negb (z =? 0)
  | Infinity _ => true
  end.

(** [a || b] *)
Definition or (a b : number) : number := if truthy a then a else b.

(** The characters [parseInt] strips (WhiteSpace and LineTerminator): TAB,
    LF, VT, FF, CR, SPACE, U+00A0, U+1680, U+2000 to U+200A, U+2028,
    U+2029, U+202F, U+205F, U+3000 and U+FEFF. *)
Definition is_white_space (cp : Z) : bool :=
  ((9 <=? cp) && (cp <=? 13)) || (cp =? 32) || (cp =? 160) || (cp =? 5760)
  || ((8192 <=? cp) && (cp <=? 8202)) || (cp =? 8232) || (cp =? 8233)
  || (cp =? 8239) || (cp =? 8287) || (cp =? 12288) || (cp =? 65279).

Fixpoint trim_start_fuel (fuel : nat) (s : string) : string :=
  match fuel with
  | O => s
  | S f =>
      match Utf8.uncons s with
      | Some (cp, _, rest) => if is_white_space cp then trim_start_fuel f rest else s
      | None => s
      end
  end.

Definition trim_start (s : string) : string := trim_start_fuel (String.length s) s.

(** The value of [c] as a digit of the given radix (10 or 16). *)
Definition digit_value (radix : Z) (c : ascii) : option Z :=
  let n := Z.of_nat (nat_of_ascii c) in
  let v :=
    if (48 <=? n) && (n <=? 57) then Some (n - 48)
    else if (97 <=? n) && (n <=? 102) then Some (n - 87)
    else if (65 <=? n) && (n <=? 70) then Some (n - 55)
    else None in
  match v with
  | Some d => if d <? radix then Some d else None
  | None => None
  end.

(** The longest prefix of radix digits, read left to right; [None] when
    that prefix is empty. *)
Fixpoint digits_prefix (radix : Z) (acc : option Z) (s : string) : option Z :=
  match s with
  | String c rest =>
      match digit_value radix c with
      | Some d => digits_prefix radix (Some (radix * default 0 acc + d)) rest
      | None => acc
      end
  | EmptyString => acc
  end.

(** [parseInt(s)] with no radix argument: leading white space, an optional
    sign, an optional [0x]/[0X] prefix that selects radix 16, then the
    longest digit prefix; [NaN] when there is no digit, minus zero for a
    negated zero, else the double nearest to the integer read (the
    language lets an engine round a decimal of more than 20 digits from
    its first 20; the engines of the browsers round the whole of it). *)
Definition parseInt (s : string) : number :=
  let s1 := trim_start s in
  let '(sign, s2) :=
    match s1 with
    | String "-" rest => (-1, rest)
    | String "+" rest => (1, rest)
    | _ => (1, s1)
    end in
  let '(radix, s3) :=
    match s2 with
    | String "0" (String "x" rest) => (16, rest)
    | String "0" (String "X" rest) => (16, rest)
    | _ => (10, s2)
    end in
  match digits_prefix radix None s3 with
  | Some n => if (n =? 0) && (sign <? 0) then NegZero else of_Z (sign * n)
  | None => NaN
  end.

End JS.

(** ** The settings page *)

Module SettingsPage.

(** The six [useState] cells of the component.  [temperature] is a decimal
    fraction; [None] stands for [NaN]. *)
Record State : Type := mkState {
  apiKey : string;
  isApiKeyVisible : bool;
  chunkSize : JS.number;
  topK : JS.number;
  temperature : option Q;
  showToast : bool
}.

Definition initial : State :=
  {| apiKey := "AIzaSyD-ExampleKeyForUI-Structure";
     isApiKeyVisible := false;
     chunkSize := JS.Int 1024;
     topK := JS.Int 5;
     temperature := Some (7 # 10)%Q;
     showToast := true |}.

Definition setApiKey (v : string) (s : State) : State :=
  mkState v (isApiKeyVisible s) (chunkSize s) (topK s) (temperature s) (showToast s).

Definition setIsApiKeyVisible (v : bool) (s : State) : State :=
  mkState (apiKey s) v (chunkSize s) (topK s) (temperature s) (showToast s).

Definition setChunkSize (v : JS.number) (s : State) : State :=
  mkState (apiKey s) (isApiKeyVisible s) v (topK s) (temperature s) (showToast s).

Definition setTopK (v : JS.number) (s : State) : State :=
  mkState (apiKey s) (isApiKeyVisible s) (chunkSize s) v (temperature s) (showToast s).

Definition setTemperature (v : option Q) (s : State) : State :=
  mkState (apiKey s) (isApiKeyVisible s) (chunkSize s) (topK s) v (showToast s).

Definition setShowToast (v : bool) (s : State) : State :=
  mkState (apiKey s) (isApiKeyVisible s) (chunkSize s) (topK s) (temperature s) v.

(** [handleReset]: three setter calls. *)
Definition handleReset (s : State) : State :=
  setTemperature (Some (7 # 10)%Q) (setTopK (JS.Int 5) (setChunkSize (JS.Int 1024) s)).

(** [handleSave] hides the toast at once; the timer it arms shows it again
    ([ToastTimer] below). *)
Definition handleSave (s : State) : State := setShowToast false s.

(** What the user and the timer can do to the page.  Text inputs carry
    [e.target.value]; the temperature slider carries the value
    [parseFloat] made of it. *)
Inductive Event : Type :=
| ApiKeyInput (value : string)
| ApiKeyVisibilityClick
| ResetDefaultsClick
| CancelClick
| ChunkSizeInput (value : string)
| TopKDecrementClick
| TopKInput (value : string)
| TopKIncrementClick
| TemperatureInput (parsed : option Q)
| SaveClick
| ToastTimer
| ToastCloseClick.

(** The [onClick]/[onChange] attribute of each control. *)
Definition handle (e : Event) (s : State) : State :=
  match e with
  | ApiKeyInput v => setApiKey v s
  | ApiKeyVisibilityClick => setIsApiKeyVisible (negb (isApiKeyVisible s)) s
  | ResetDefaultsClick => handleReset s
  | CancelClick => handleReset s
  | ChunkSizeInput v => setChunkSize (JS.parseInt v) s
  | TopKDecrementClick =>
      setTopK (JS.max (JS.Int 1) (JS.minus (topK s) (JS.Int 1))) s
  | TopKInput v =>
      setTopK (JS.max (JS.Int 1) (JS.or (JS.parseInt v) (JS.Int 1))) s
  | TopKIncrementClick => setTopK (JS.plus (topK s) (JS.Int 1)) s
  | TemperatureInput v => setTemperature v s
  | SaveClick => handleSave s
  | ToastTimer => setShowToast true s
  | ToastCloseClick => setShowToast false s
  end.

(** The page after a sequence of events, oldest first. *)
Definition run (events : list Event) (s : State) : State :=
  fold_left (fun acc e => handle e acc) events s.

(** [topK >= 1] *)
Definition topK_at_least_1 (s : State) : Prop :=
  JS.ge (topK s) (JS.Int 1) = true.

Example parseInt_decimal : JS.parseInt "  42px" = JS.Int 42.
Proof. reflexivity. Qed.

Example parseInt_negative : JS.parseInt "-7" = JS.Int (-7).
Proof. reflexivity. Qed.

Example parseInt_hex : JS.parseInt "0x1f" = JS.Int 31.
Proof. reflexivity. Qed.

Example parseInt_text : JS.parseInt "abc" = JS.NaN.
Proof. reflexivity. Qed.

Example parseInt_minus_zero : JS.parseInt "-0" = JS.NegZero.
Proof. reflexivity. Qed.

(** A no-break space (U+00A0, bytes C2 A0) is stripped like a space. *)
Example parseInt_no_break_space :
  JS.parseInt (String (ascii_of_nat 194) (String (ascii_of_nat 160) "12")) = JS.Int 12.
Proof. vm_compute. reflexivity. Qed.

(** 2^53 + 1 rounds to 2^53, and a 1 followed by 400 zeros to Infinity. *)
Example parseInt_rounds :
  JS.parseInt "9007199254740993" = JS.Int 9007199254740992 /\
  JS.parseInt (String "1" (string_of_list_ascii (repeat "0"%char 400)))
  = JS.Infinity false.
Proof. vm_compute. split; reflexivity. Qed.

Example typed_infinity_stays :
  topK (handle TopKDecrementClick
          (handle (TopKInput (String "1" (string_of_list_ascii (repeat "0"%char 400))))
                  initial))
  = JS.Infinity false.
Proof. vm_compute. reflexivity. Qed.

Example typed_text_gives_1 :
  topK (handle (TopKInput "abc") initial) = JS.Int 1.
Proof. reflexivity. Qed.

Example typed_zero_gives_1 :
  topK (handle (TopKInput "0") initial) = JS.Int 1.
Proof. reflexivity. Qed.

Lemma round53_pos (n : Z) : 1 <= n -> 1 <= JS.round53 n.
Proof.
  intros Hn. unfold JS.round53.
  destruct (n <? 2 ^ 53) eqn:Hlt; [exact Hn |].
  apply Z.ltb_ge in Hlt.
  assert (He : 0 <= Z.log2 n - 52).
  { assert (53 <= Z.log2 n) by (apply Z.log2_le_pow2; lia). lia. }
  set (e := Z.log2 n - 52) in *.
  assert (Hpow : 0 < 2 ^ e) by (apply Z.pow_pos_nonneg; lia).
  assert (Hq : 1 <= n / 2 ^ e).
  { apply Z.div_le_lower_bound; [exact Hpow |].
    rewrite Z.mul_1_r. transitivity (2 ^ Z.log2 n).
    - apply Z.pow_le_mono_r; lia.
    - apply Z.log2_spec. lia. }
  destruct ((2 ^ (e - 1) <? n mod 2 ^ e)
            || ((n mod 2 ^ e =? 2 ^ (e - 1)) && Z.odd (n / 2 ^ e))); nia.
Qed.

Lemma of_Z_has_position (z : Z) : exists p, JS.position (JS.of_Z z) = Some p.
Proof.
  unfold JS.of_Z. destruct (2 ^ 1024 <=? JS.round53 (Z.abs z)); simpl; [| eauto].
  destruct (z <? 0); eauto.
Qed.

Lemma ge_1_cases (a : JS.number) :
  JS.ge a (JS.Int 1) = true <->
  (exists z, a = JS.Int z /\ 1 <= z) \/ a = JS.Infinity false.
Proof.
  split.
  - destruct a as [| z | | [|]]; cbn; intros H; try discriminate; [| now right].
    left. exists z. split; [reflexivity |].
    apply negb_true_iff, Z.ltb_ge in H. exact H.
  - intros [(z & -> & Hz) | ->]; cbn; [| reflexivity].
    apply negb_true_iff, Z.ltb_ge. exact Hz.
Qed.

Lemma of_Z_ge_1 (z : Z) : 1 <= z -> JS.ge (JS.of_Z z) (JS.Int 1) = true.
Proof.
  intros Hz. apply ge_1_cases. unfold JS.of_Z.
  rewrite Z.abs_eq by lia.
  destruct (2 ^ 1024 <=? JS.round53 z).
  - right. f_equal. apply Z.ltb_ge. lia.
  - left. eexists. split; [reflexivity |].
    pose proof (round53_pos z Hz). rewrite Z.sgn_pos by lia. lia.
Qed.

Lemma max_1_ge_1 (a : JS.number) :
  (exists p, JS.position a = Some p) ->
  JS.ge (JS.max (JS.Int 1) a) (JS.Int 1) = true.
Proof.
  intros [p Hp]. destruct a as [| z | | [|]]; try discriminate; try reflexivity.
  unfold JS.max. cbn.
  destruct (1 <? z) eqn:H1; cbn.
  - apply negb_true_iff, Z.ltb_ge. apply Z.ltb_lt in H1. lia.
  - destruct (z <? 1); reflexivity.
Qed.

Lemma or_1_has_position (a : JS.number) :
  exists p, JS.position (JS.or a (JS.Int 1)) = Some p.
Proof.
  destruct a as [| z | | [|]]; unfold JS.or; cbn; eauto.
  destruct (z =? 0); cbn; eauto.
Qed.

Lemma handle_keeps_topK (e : Event) (s : State) :
  topK_at_least_1 s -> topK_at_least_1 (handle e s).
Proof.
  unfold topK_at_least_1. intros Hs.
  destruct e; cbn [handle handleReset handleSave setApiKey setIsApiKeyVisible
                   setChunkSize setTopK setTemperature setShowToast topK];
    try exact Hs; try reflexivity.
  - apply max_1_ge_1.
    apply ge_1_cases in Hs as [(z & -> & Hz) | ->]; [| cbn; eauto].
    apply of_Z_has_position.
  - apply max_1_ge_1, or_1_has_position.
  - apply ge_1_cases in Hs as [(z & -> & Hz) | ->]; [| reflexivity].
    apply of_Z_ge_1. lia.
Qed.

(** C9. On the settings page the Top-K value is a number that is at least 1
    in every state reachable from the initial one (where it is 5) by any
    sequence of events: decrement and increment clicks, typed input of any
    text (text that does not parse gives [NaN], which is replaced by 1), and
    every other control of the page. *)
Theorem topK_always_at_least_1 (events : list Event) :
  topK initial = JS.Int 5 /\ topK_at_least_1 (run events initial).
Proof.
  split; [reflexivity |].
  unfold run.
  assert (Hinit : topK_at_least_1 initial) by reflexivity.
  revert Hinit. generalize initial as s.
  induction events as [| e events IH]; intros s Hs; simpl.
  - exact Hs.
  - apply IH. now apply handle_keeps_topK.
Qed.

(** C10. [handleReset], which both "Reset Defaults" and "Cancel" run, sets
    chunkSize to 1024, topK to 5 and temperature to 0.7 and leaves the API
    key, its visibility flag and the toast flag as they were. *)
Theorem handleReset_frame (s : State) :
  handle ResetDefaultsClick s = handleReset s /\
  handle CancelClick s = handleReset s /\
  chunkSize (handleReset s) = JS.Int 1024 /\
  topK (handleReset s) = JS.Int 5 /\
  temperature (handleReset s) = Some (7 # 10)%Q /\
  apiKey (handleReset s) = apiKey s /\
  isApiKeyVisible (handleReset s) = isApiKeyVisible s /\
  showToast (handleReset s) = showToast s.
Proof. repeat split. Qed.

End SettingsPage.

(** ** Python values used by the backend listings *)

Module Py.

(** The exceptions the listings can raise.  [External] is an exception
    raised inside an external call (network, model, database). *)
Inductive exception : Type :=
| IndexError
| KeyError (key : string)
| ValueError
| External (what : string).

Inductive result (A : Type) : Type :=
| Ok (value : A)
| Raise (e : exception).
Arguments Ok {A} value.
Arguments Raise {A} e.

Definition bind {A B : Type} (r : result A) (k : A -> result B) : result B :=
  match r with
  | Ok a => k a
  | Raise e => Raise e
  end.

Notation "'let*' x ':=' e 'in' k" := (bind e (fun x => k))
  (at level 10, x name, e at level 100, k at level 200).

(** [len(l)] *)
Definition len {A : Type} (l : list A) : Z := Z.of_nat (length l).

(** [l[i]]: a negative index counts from the end; out of range raises. *)
Definition getitem {A : Type} (l : list A) (i : Z) : result A :=
  let j := if i <? 0 then i + len l else i in
  if (j <? 0) || (len l <=? j) then Raise IndexError
  else match l !! Z.to_nat j with
       | Some x => Ok x
       | None => Raise IndexError
       end.

(** [d[key]] and [d.get(key)] on a dict with string keys. *)
Definition dict_getitem {V : Type} (d : gmap string V) (key : string) : result V :=
  match d !! key with
  | Some v => Ok v
  | None => Raise (KeyError key)
  end.

(** A Python [str]: a sequence of Unicode code points.  A [string] of
    this file holds one in UTF-8. *)
Definition str : Type := list Z.

Definition decode (s : string) : str := Utf8.code_points s.

(** [s[:n]] on a [str] held in UTF-8: the first [n] characters. *)
Definition slice_to (n : nat) (s : string) : string := Utf8.take_chars n s.

(** The decimal digits of Unicode (category Nd), which are what [\d]
    matches in a [str] pattern and what [int] reads.  They come in sets of
    ten consecutive code points, zero first; these are the zeros of the 66
    sets of Unicode 14.0, the database of CPython 3.11 ([unicodedata]). *)
Definition decimal_zeros : list Z :=
  [48; 1632; 1776; 1984; 2406; 2534; 2662; 2790; 2918; 3046; 3174; 3302;
   3430; 3558; 3664; 3792; 3872; 4160; 4240; 6112; 6160; 6470; 6608; 6784;
   6800; 6992; 7088; 7232; 7248; 42528; 43216; 43264; 43472; 43504; 43600;
   44016; 65296; 66720; 68912; 69734; 69872; 69942; 70096; 70384; 70736;
   70864; 71248; 71360; 71472; 71904; 72016; 72784; 73040; 73120; 92768;
   92864; 93008; 120782; 120792; 120802; 120812; 120822; 123200; 123632;
   125264; 130032].

(** [unicodedata.decimal(c)], [None] when [c] is no decimal digit. *)
Definition decimal (cp : Z) : option Z :=
  match List.find (fun zero => (zero <=? cp) && (cp <? zero + 10)) decimal_zeros with
  | Some zero => Some (cp - zero)
  | None => None
  end.

Definition is_decimal (cp : Z) : bool :=
  match decimal cp with
  | Some _ => true
  | None => false
  end.

(** The integer a string of decimal digits denotes. *)
Definition decimal_value (s : str) : Z :=
  fold_left (fun acc cp => 10 * acc + default 0 (decimal cp)) s 0.

(** [sys.int_info.default_max_str_digits]: [int] refuses a longer digit
    string (CPython 3.11, and the security releases of 3.7 to 3.10). *)
Definition int_max_str_digits : Z := 4300.

(** The white space [int] skips at both ends: TAB to CR and SPACE, and
    above U+007F the characters of [str.isspace]. *)
Definition int_space (cp : Z) : bool :=
  ((9 <=? cp) && (cp <=? 13)) || (cp =? 32) || (cp =? 133) || (cp =? 160)
  || (cp =? 5760) || ((8192 <=? cp) && (cp <=? 8202)) || (cp =? 8232)
  || (cp =? 8233) || (cp =? 8239) || (cp =? 8287) || (cp =? 12288).

(** The digits of an [int] literal in base 10: decimal digits with single
    underscores between them, then white space only.  [count] digits have
    been read, denoting [acc]. *)
Fixpoint int_digits (after_underscore : bool) (count acc : Z) (s : str)
  : option (Z * Z) :=
  match s with
  | [] => if after_underscore || (count =? 0) then None else Some (count, acc)
  | cp :: rest =>
      match decimal cp with
      | Some d => int_digits false (count + 1) (10 * acc + d) rest
      | None =>
          if after_underscore || (count =? 0) then None
          else if cp =? 95 then int_digits true count acc rest
          else if forallb int_space s then Some (count, acc)
          else None
      end
  end.

Fixpoint skip_space (s : str) : str :=
  match s with
  | cp :: rest => if int_space cp then skip_space rest else s
  | [] => []
  end.

(** [int(s)] on a [str]: white space, an optional sign, the digits, white
    space; anything else, or more than [int_max_str_digits] digits, raises
    [ValueError]. *)
Definition int (s : str) : result Z :=
  let body := skip_space s in
  let '(sign, digits) :=
    match body with
    | cp :: rest =>
        if cp =? 43 then (1, rest) else if cp =? 45 then (-1, rest) else (1, body)
    | [] => (1, body)
    end in
  match int_digits false 0 0 digits with
  | Some (count, value) =>
      if int_max_str_digits <? count then Raise ValueError
      else Ok (sign * value)
  | None => Raise ValueError
  end.

(** [re.findall(r'\[(\d+)\]', s)].  The text is read once, left to right.
    [open] holds the digits read since the last opening bracket when the
    text since that bracket can still become a match.  A failed attempt
    consumed only that bracket and digits, so the search resumes at the
    character that broke it, which is what the regex engine's retry at the
    next position comes to. *)
Fixpoint scan (open : option str) (s : str) : list str :=
  match s with
  | [] => []
  | cp :: rest =>
      if cp =? 91 then scan (Some []) rest
      else match open with
           | None => scan None rest
           | Some ds =>
               if is_decimal cp then scan (Some (ds ++ [cp])) rest
               else if (cp =? 93) && negb (bool_decide (ds = []))
                    then ds :: scan None rest
                    else scan None rest
           end
  end.

Definition findall_bracketed_digits (s : string) : list str := scan None (decode s).

(** Iteration over [set(l)] visits each element once, in an order that
    depends on the hashes of the strings, which the interpreter salts anew
    in each process.  An iteration order is any function that lists the
    distinct elements of its argument. *)
Record set_order : Type := mkSetOrder {
  set_iter : list str -> list str;
  set_iter_perm : forall l, set_iter l ≡ₚ remove_dups l
}.

(** The order of first occurrence, for concrete runs. *)
Definition first_occurrence : set_order :=
  {| set_iter := remove_dups; set_iter_perm := fun l => Permutation_refl _ |}.

End Py.

Import Py.

(** ** Documents and the fixed metadata schema *)

Inductive MetaValue : Type :=
| MNone
| MStr (s : string)
| MInt (z : Z)
| MFloat (q : Q)
| MBool (b : bool)
| MStrs (l : list string).

(** LangChain's [Document]: text and a metadata dict. *)
Record Document : Type := mkDocument {
  page_content : string;
  metadata : gmap string MetaValue
}.

(** [d.get(key)]: [None] when the key is absent. *)
Definition dict_get (d : gmap string MetaValue) (key : string) : MetaValue :=
  default MNone (d !! key).

(** ** Citation extraction and the query endpoint *)

Module Citations.

(** One entry of the list [extract_citations] returns. *)
Record Citation : Type := mkCitation {
  number : Z;
  file_name : MetaValue;
  page_number : MetaValue;
  start_time : MetaValue;
  text_snippet : string
}.

(** The dict literal appended for ordinal [num] and document [doc];
    [doc.metadata["file_name"]] raises when the key is missing. *)
Definition citation_of (num : Z) (doc : Document) : result Citation :=
  let* fname := dict_getitem (metadata doc) "file_name" in
  Ok {| number := num;
        file_name := fname;
        page_number := dict_get (metadata doc) "page_number";
        start_time := dict_get (metadata doc) "start_time";
        text_snippet := slice_to 200 (page_content doc) |}.

(** The body of the [for num_str in set(citation_nums)] loop, with the
    list built so far. *)
Fixpoint extract_loop (nums : list str) (source_docs : list Document)
  (citations : list Citation) : result (list Citation) :=
  match nums with
  | [] => Ok citations
  | num_str :: rest =>
      let* num := int num_str in
      if num <=? len source_docs then
        let* doc := getitem source_docs (num - 1) in
        let* c := citation_of num doc in
        extract_loop rest source_docs (citations ++ [c])
      else extract_loop rest source_docs citations
  end.

(** [extract_citations], in a process whose sets iterate in [order]. *)
Definition extract_citations (order : set_order) (answer : string)
  (source_docs : list Document) : result (list Citation) :=
  let citation_nums := findall_bracketed_digits answer in
  extract_loop (set_iter order citation_nums) source_docs [].

(** What the chain returns: the generated text and the retrieved chunks
    the prompt was built from. *)
Record ChainResult : Type := mkChainResult {
  answer : string;
  source_documents : list Document
}.

(** The body the endpoint returns. *)
Record Response : Type := mkResponse {
  resp_answer : string;
  resp_citations : list Citation
}.

(** [POST /chat/query].  [get_user_chain user_id question] stands for
    [get_user_chain(user_id)({"question": question})]: retrieval and
    generation, both external. *)
Definition query (order : set_order)
  (get_user_chain : string -> string -> result ChainResult)
  (question user_id : string) : result Response :=
  let* r := get_user_chain user_id question in
  let* citations := extract_citations order (answer r) (source_documents r) in
  Ok {| resp_answer := answer r; resp_citations := citations |}.

(** The ordinal-to-chunk mapping of the prompt: ordinal [n] is the n-th
    retrieved chunk, counted from 1 ("[1], [2], etc."). *)
Definition context_chunk (source_docs : list Document) (n : Z) : option Document :=
  if 1 <=? n then source_docs !! Z.to_nat (n - 1) else None.

(** The sentence the prompt asks for when the context has no answer. *)
Definition no_information_message : string := "I don't have that information".

Definition says_no_information (text : string) : bool :=
  match index 0 no_information_message text with
  | Some _ => true
  | None => false
  end.

(** The zero-chunk behaviour as the specification words it, for a given
    chain: whenever the chain retrieved nothing, the endpoint returns, the
    text is the no-information message, it has no bracket citation, and the
    citation list is empty. *)
Definition zero_chunks_give_no_information (order : set_order)
  (get_user_chain : string -> string -> result ChainResult) : Prop :=
  forall question user_id r,
    get_user_chain user_id question = Ok r ->
    source_documents r = [] ->
    exists resp,
      query order get_user_chain question user_id = Ok resp /\
      says_no_information (resp_answer resp) = true /\
      findall_bracketed_digits (resp_answer resp) = [] /\
      resp_citations resp = [].

Example findall_two :
  findall_bracketed_digits "descent [1][2]. A ball [2]." = [[49]; [50]; [50]].
Proof. vm_compute. reflexivity. Qed.

Example findall_nested :
  findall_bracketed_digits "[[12] [3[4] [] [5a] [a6]" = [[49; 50]; [52]].
Proof. vm_compute. reflexivity. Qed.

(** A fullwidth zero (U+FF10) between brackets is an ordinal, of value 0. *)
Example findall_fullwidth :
  findall_bracketed_digits
    (String "[" (String (ascii_of_nat 239) (String (ascii_of_nat 188)
       (String (ascii_of_nat 144) "]"))))
  = [[65296]] /\ int [65296] = Ok 0.
Proof. vm_compute. split; reflexivity. Qed.

Example int_leading_zero : int (decode "007") = Ok 7.
Proof. vm_compute. reflexivity. Qed.

Example int_too_long : int (repeat 49 4301) = Raise ValueError.
Proof. vm_compute. reflexivity. Qed.

(** The text has a bracketed ordinal whose value is 0 ("[0]", "[00]"). *)
Definition cites_ordinal_zero (text : string) : bool :=
  existsb (fun num_str => decimal_value num_str =? 0) (findall_bracketed_digits text).

(** The text has a bracketed ordinal with more digits than [int] accepts. *)
Definition cites_oversized_ordinal (text : string) : bool :=
  existsb (fun num_str => int_max_str_digits <? len num_str)
          (findall_bracketed_digits text).

Definition lecture_notes : Document :=
  {| page_content := "Speed is a scalar quantity.";
     metadata := <["file_name" := MStr "lecture_notes.pdf"]>
                 (<["page_number" := MInt 5]> ∅) |}.

Definition week3_video : Document :=
  {| page_content := "[AUDIO] Velocity is a vector quantity.";
     metadata := <["file_name" := MStr "week3_video.mp4"]>
                 (<["start_time" := MInt 135]> ∅) |}.

(** What the regex group yields: a non-empty string of decimal digits. *)
Definition digit_string (s : str) : Prop :=
  s <> [] /\ Forall (fun cp => is_decimal cp = true) s.

(** No digit of the table is a sign, an underscore or white space. *)
Definition plain_digits (zero : Z) : bool :=
  forallb (fun i => let cp := zero + i in
                    negb (int_space cp) && negb (cp =? 43) && negb (cp =? 45)
                    && negb (cp =? 95))
          [0; 1; 2; 3; 4; 5; 6; 7; 8; 9].

Lemma decimal_zeros_plain : forallb plain_digits decimal_zeros = true.
Proof. vm_compute. reflexivity. Qed.

Lemma decimal_Some (cp d : Z) :
  decimal cp = Some d ->
  exists zero, In zero decimal_zeros /\ zero <= cp < zero + 10 /\ d = cp - zero.
Proof.
  unfold decimal.
  destruct (List.find _ decimal_zeros) as [zero |] eqn:Hfind; [| discriminate].
  intros [= <-]. apply find_some in Hfind as [Hin Hc].
  apply andb_true_iff in Hc as [Hlo Hhi].
  apply Z.leb_le in Hlo. apply Z.ltb_lt in Hhi. eauto.
Qed.

Lemma decimal_range (cp d : Z) : decimal cp = Some d -> 0 <= d <= 9.
Proof.
  intros H. apply decimal_Some in H as (zero & _ & Hr & ->). lia.
Qed.

Lemma decimal_plain (cp d : Z) :
  decimal cp = Some d ->
  int_space cp = false /\ (cp =? 43) = false /\ (cp =? 45) = false /\
  (cp =? 95) = false.
Proof.
  intros H. apply decimal_Some in H as (zero & Hin & Hr & _).
  pose proof decimal_zeros_plain as Hall.
  rewrite forallb_forall in Hall. specialize (Hall zero Hin).
  unfold plain_digits in Hall. rewrite forallb_forall in Hall.
  assert (Hi : In (cp - zero) [0; 1; 2; 3; 4; 5; 6; 7; 8; 9]).
  { assert (cp - zero = 0 \/ cp - zero = 1 \/ cp - zero = 2 \/ cp - zero = 3 \/
            cp - zero = 4 \/ cp - zero = 5 \/ cp - zero = 6 \/ cp - zero = 7 \/
            cp - zero = 8 \/ cp - zero = 9) as Hc by lia.
    simpl. intuition. }
  specialize (Hall _ Hi). cbv zeta in Hall.
  replace (zero + (cp - zero)) with cp in Hall by lia.
  repeat (apply andb_true_iff in Hall as [Hall ?]).
  repeat split; now apply negb_true_iff.
Qed.

Lemma is_decimal_Some (cp : Z) :
  is_decimal cp = true -> exists d, decimal cp = Some d.
Proof.
  unfold is_decimal. destruct (decimal cp); [eauto | discriminate].
Qed.

Lemma int_digits_decimals (s : str) :
  Forall (fun cp => is_decimal cp = true) s ->
  forall (u : bool) (count acc : Z),
    0 <= count ->
    int_digits u count acc s
    = match s with
      | [] => if u || (count =? 0) then None else Some (count, acc)
      | _ => Some (count + len s,
                   fold_left (fun a cp => 10 * a + default 0 (decimal cp)) s acc)
      end.
Proof.
  induction 1 as [| cp rest Hcp Hrest IH]; intros u count acc Hcount;
    [reflexivity |].
  apply is_decimal_Some in Hcp as [d Hd].
  cbn [int_digits fold_left]. rewrite Hd. cbn [default from_option]. unfold id.
  rewrite IH by lia. unfold len. destruct rest as [| cp' rest'].
  - cbn [length fold_left]. replace (count + 1 =? 0) with false by lia.
    cbn [orb]. replace (count + Z.of_nat 1) with (count + 1) by lia. reflexivity.
  - replace (count + 1 + Z.of_nat (length (cp' :: rest')))
      with (count + Z.of_nat (length (cp :: cp' :: rest')))
      by (cbn [length]; lia).
    reflexivity.
Qed.

(** On a digit string [int] fails on length alone, and else returns the
    value of the digits. *)
Lemma int_digit_string (s : str) :
  digit_string s ->
  int s = if int_max_str_digits <? len s then Raise ValueError
          else Ok (decimal_value s).
Proof.
  intros [Hne Hall]. destruct s as [| cp rest]; [contradiction |].
  pose proof Hall as Hall'. apply Forall_cons in Hall' as [Hcp _].
  apply is_decimal_Some in Hcp as [d Hd].
  destruct (decimal_plain cp d Hd) as (Hsp & H43 & H45 & _).
  unfold int. cbn [skip_space]. rewrite Hsp, H43, H45.
  rewrite (int_digits_decimals (cp :: rest) Hall) by lia.
  rewrite Z.add_0_l.
  destruct (int_max_str_digits <? len (cp :: rest)); [reflexivity |].
  unfold decimal_value. now rewrite Z.mul_1_l.
Qed.

Lemma fold_digits_nonneg (s : str) (acc : Z) :
  Forall (fun cp => is_decimal cp = true) s -> 0 <= acc ->
  0 <= fold_left (fun a cp => 10 * a + default 0 (decimal cp)) s acc.
Proof.
  intros Hall. revert acc. induction Hall as [| cp rest Hcp _ IH]; intros acc Hacc;
    [exact Hacc |].
  cbn [fold_left]. apply IH.
  apply is_decimal_Some in Hcp as [d Hd]. rewrite Hd.
  apply decimal_range in Hd. cbn [default from_option]. unfold id. lia.
Qed.

Lemma int_nonneg (s : str) (n : Z) : digit_string s -> int s = Ok n -> 0 <= n.
Proof.
  intros Hs. rewrite (int_digit_string s Hs).
  destruct (int_max_str_digits <? len s); [discriminate |].
  intros [= <-]. apply fold_digits_nonneg; [apply Hs | lia].
Qed.

Lemma scan_digit_strings (s : str) (open : option str) :
  (forall ds, open = Some ds -> Forall (fun cp => is_decimal cp = true) ds) ->
  Forall digit_string (scan open s).
Proof.
  revert open. induction s as [| cp s IH]; intros open Hopen; cbn [scan].
  - constructor.
  - destruct (cp =? 91).
    + apply IH. intros ds [= <-]. constructor.
    + destruct open as [ds |]; [| apply IH; intros ? [=]].
      destruct (is_decimal cp) eqn:Hc.
      * apply IH. intros ds' [= <-].
        apply Forall_app. split; [now apply Hopen |]. now repeat constructor.
      * destruct ((cp =? 93) && negb (bool_decide (ds = []))) eqn:Hclose.
        -- constructor; [| apply IH; intros ? [=]].
           apply andb_true_iff in Hclose as [_ Hne].
           apply negb_true_iff, bool_decide_eq_false in Hne.
           split; [exact Hne | now apply Hopen].
        -- apply IH; intros ? [=].
Qed.

Lemma findall_digit_strings (text : string) (num_str : str) :
  num_str ∈ findall_bracketed_digits text -> digit_string num_str.
Proof.
  intros Hin. pose proof (scan_digit_strings (decode text) None) as Hall.
  rewrite Forall_forall in Hall. apply Hall; [intros ? [=] | exact Hin].
Qed.

Lemma set_iter_elem (order : set_order) (l : list str) (x : str) :
  x ∈ set_iter order l <-> x ∈ l.
Proof.
  rewrite (set_iter_perm order l). apply elem_of_remove_dups.
Qed.

(** An ordinal of a text that cites no zero is positive when it converts. *)
Lemma no_zero_ordinals_positive (text : string) (num_str : str) (n : Z) :
  cites_ordinal_zero text = false ->
  num_str ∈ findall_bracketed_digits text ->
  int num_str = Ok n -> 1 <= n.
Proof.
  intros Hz Hin Hint.
  pose proof (findall_digit_strings _ _ Hin) as Hds.
  pose proof (int_nonneg _ _ Hds Hint) as Hnn.
  rewrite (int_digit_string _ Hds) in Hint.
  destruct (int_max_str_digits <? len num_str); [discriminate |].
  injection Hint as <-.
  destruct (Z.eq_dec (decimal_value num_str) 0) as [H0 | H0]; [| lia].
  exfalso. apply not_true_iff_false in Hz. apply Hz.
  apply existsb_exists. exists num_str. split.
  - now apply list_elem_of_In.
  - now apply Z.eqb_eq.
Qed.

(** An ordinal of a text that cites no oversized one converts. *)
Lemma no_oversized_ordinals_convert (text : string) (num_str : str) :
  cites_oversized_ordinal text = false ->
  num_str ∈ findall_bracketed_digits text ->
  int num_str = Ok (decimal_value num_str).
Proof.
  intros Hbig Hin.
  rewrite (int_digit_string _ (findall_digit_strings _ _ Hin)).
  destruct (int_max_str_digits <? len num_str) eqn:Hlen; [| reflexivity].
  exfalso. apply not_true_iff_false in Hbig. apply Hbig.
  apply existsb_exists. exists num_str. split; [now apply list_elem_of_In | exact Hlen].
Qed.

Lemma getitem_nonneg {A : Type} (l : list A) (i : Z) (x : A) :
  0 <= i -> getitem l i = Ok x -> l !! Z.to_nat i = Some x.
Proof.
  intros Hi. unfold getitem.
  destruct (i <? 0) eqn:Hneg; [apply Z.ltb_lt in Hneg; lia |].
  destruct ((i <? 0) || (len l <=? i)); [discriminate |].
  destruct (l !! Z.to_nat i); [intros [= ->]; reflexivity | discriminate].
Qed.

(** Loop invariant of [extract_loop] when every ordinal is positive: a
    citation of the result was there before, or it cites the chunk the
    prompt numbered with its ordinal. *)
Lemma extract_loop_sound (nums : list str) (docs : list Document)
  (acc cs : list Citation) :
  (forall num_str n, num_str ∈ nums -> int num_str = Ok n -> 1 <= n) ->
  extract_loop nums docs acc = Ok cs ->
  forall c, c ∈ cs ->
    c ∈ acc \/
    exists num_str d, num_str ∈ nums /\ int num_str = Ok (number c) /\
      context_chunk docs (number c) = Some d /\
      citation_of (number c) d = Ok c.
Proof.
  revert acc. induction nums as [| n nums IH]; intros acc Hpos Hrun c Hc;
    cbn [extract_loop] in Hrun.
  - injection Hrun as <-. now left.
  - assert (Hpos' : forall num_str k, num_str ∈ nums -> int num_str = Ok k -> 1 <= k)
      by (intros ? ? ?; apply Hpos; now right).
    destruct (int n) as [k |] eqn:Hint; simpl in Hrun; [| discriminate].
    assert (Hk : 1 <= k) by (apply (Hpos n); [left | exact Hint]).
    destruct (k <=? len docs).
    + destruct (getitem docs (k - 1)) as [d |] eqn:Hget; simpl in Hrun; [| discriminate].
      destruct (citation_of k d) as [c' |] eqn:Hcite; simpl in Hrun; [| discriminate].
      destruct (IH _ Hpos' Hrun c Hc) as [Hacc | (m & d' & Hm & Hrest)].
      * apply elem_of_app in Hacc as [Hacc | Hnew]; [now left |].
        apply list_elem_of_singleton in Hnew as ->. right.
        assert (Hnum : number c' = k).
        { unfold citation_of in Hcite.
          destruct (dict_getitem (metadata d) "file_name"); simpl in Hcite;
            [| discriminate].
          now injection Hcite as <-. }
        rewrite Hnum. exists n, d. split; [left |]. split; [exact Hint |].
        split; [| exact Hcite].
        unfold context_chunk. destruct (1 <=? k) eqn:H1; [| apply Z.leb_gt in H1; lia].
        apply getitem_nonneg; [lia | exact Hget].
      * right. exists m, d'. split; [now right | exact Hrest].
    + destruct (IH _ Hpos' Hrun c Hc) as [Hacc | (m & d' & Hm & Hrest)]; [now left |].
      right. exists m, d'. split; [now right | exact Hrest].
Qed.

(** When no bracketed ordinal is 0, every citation returned cites the chunk
    the prompt numbered with its ordinal, and that ordinal occurs in the
    text. *)
Lemma extract_citations_sound (order : set_order) (text : string)
  (docs : list Document) (cs : list Citation) (c : Citation) :
  cites_ordinal_zero text = false ->
  extract_citations order text docs = Ok cs ->
  c ∈ cs ->
  exists num_str d, num_str ∈ findall_bracketed_digits text /\
    int num_str = Ok (number c) /\
    context_chunk docs (number c) = Some d /\
    citation_of (number c) d = Ok c.
Proof.
  intros Hz Hrun Hc. unfold extract_citations in Hrun.
  destruct (extract_loop_sound _ _ _ _
              (fun num_str n Hin =>
                 no_zero_ordinals_positive text num_str n Hz
                   (proj1 (set_iter_elem order _ num_str) Hin))
              Hrun c Hc)
    as [Hnil | (m & d & Hm & Hnum & Hctx & Hcite)].
  - now apply elem_of_nil in Hnil.
  - exists m, d. repeat split; try assumption. now apply set_iter_elem in Hm.
Qed.

(** When no bracketed ordinal is 0, an ordinal of the text that numbers no
    chunk of the prompt is absent from the citation list. *)
Lemma extract_citations_drops (order : set_order) (text : string)
  (docs : list Document) (cs : list Citation) (n : Z) :
  cites_ordinal_zero text = false ->
  extract_citations order text docs = Ok cs ->
  context_chunk docs n = None ->
  forall c, c ∈ cs -> number c <> n.
Proof.
  intros Hz Hrun Hnone c Hc Heq.
  destruct (extract_citations_sound _ _ _ _ _ Hz Hrun Hc) as (m & d & _ & _ & Hctx & _).
  congruence.
Qed.

Lemma extract_loop_no_docs (nums : list str) (acc : list Citation) :
  (forall num_str, num_str ∈ nums -> exists n, int num_str = Ok n /\ 1 <= n) ->
  extract_loop nums [] acc = Ok acc.
Proof.
  induction nums as [| n nums IH]; intros Hpos; cbn [extract_loop]; [reflexivity |].
  destruct (Hpos n) as (k & Hint & Hk); [left |]. rewrite Hint. cbn [bind].
  destruct (k <=? len (@nil Document)) eqn:Hle.
  - apply Z.leb_le in Hle. unfold len in Hle. simpl in Hle. lia.
  - apply IH. intros; apply Hpos; now right.
Qed.

Lemma query_answer (order : set_order)
  (get_user_chain : string -> string -> result ChainResult)
  (question user_id : string) (resp : Response) :
  query order get_user_chain question user_id = Ok resp ->
  exists r, get_user_chain user_id question = Ok r /\ resp_answer resp = answer r.
Proof.
  unfold query. destruct (get_user_chain user_id question) as [r |]; [| discriminate].
  cbn [bind].
  destruct (extract_citations order (answer r) (source_documents r)); [| discriminate].
  cbn [bind]. intros [= <-]. eauto.
Qed.

(** C1. Ordinal 0 numbers no chunk of the prompt, yet [extract_citations]
    does not drop it: the guard [num <= len(source_docs)] lets 0 through and
    [source_docs[-1]] is the last retrieved chunk, so the citation list gets
    an entry numbered 0 for that chunk.  (The text is returned as it is.) *)
Theorem ordinal_zero_is_not_dropped :
  context_chunk [lecture_notes; week3_video] 0 = None /\
  forall order,
    query order
          (fun _ _ => Ok (mkChainResult "Velocity has a direction [0]."
                            [lecture_notes; week3_video]))
          "What is velocity?" "user_xyz"
    = Ok {| resp_answer := "Velocity has a direction [0].";
            resp_citations :=
              [ {| number := 0;
                   file_name := MStr "week3_video.mp4";
                   page_number := MNone;
                   start_time := MInt 135;
                   text_snippet := "[AUDIO] Velocity is a vector quantity." |} ] |}.
Proof.
  split; [vm_compute; reflexivity |]. intros order.
  unfold query, extract_citations. cbn [bind answer source_documents].
  replace (findall_bracketed_digits "Velocity has a direction [0].") with [[48]]
    by (vm_compute; reflexivity).
  pose proof (set_iter_perm order [[48]]) as Hperm.
  change (remove_dups [[48]]) with [[48]] in Hperm.
  apply Permutation_singleton_r in Hperm. rewrite Hperm.
  vm_compute. reflexivity.
Qed.

(** With no retrieved chunk the same ordinal makes [source_docs[-1]]
    raise. *)
Lemma ordinal_zero_raises_without_context :
  extract_citations first_occurrence "See [0]." [] = Raise IndexError.
Proof. vm_compute. reflexivity. Qed.

(** C2, as worded, fails: with zero retrieved chunks the endpoint returns
    whatever text the chain generated, here a sentence with a bracket
    citation and without the no-information message. *)
Lemma zero_chunks_claim_fails :
  ~ exists order,
      zero_chunks_give_no_information order
        (fun _ _ => Ok (mkChainResult "Backpropagation uses the chain rule [1]." [])).
Proof.
  intros [order H].
  destruct (H "Explain backpropagation" "user_xyz" _ eq_refl eq_refl)
    as (resp & Hq & Hsays & _).
  apply query_answer in Hq as (r & [= <-] & Hanswer).
  rewrite Hanswer in Hsays. vm_compute in Hsays. discriminate.
Qed.

(** C2, amended. When the chain retrieved zero chunks and every bracketed
    ordinal of the generated text converts to an integer other than 0 (none
    has the value 0, none has more digits than [int] accepts), the endpoint
    returns a response: its citation list is empty and its text is the
    generated text, unchanged. *)
Theorem zero_chunks_empty_citations
  (order : set_order) (get_user_chain : string -> string -> result ChainResult)
  (question user_id : string) (r : ChainResult) :
  get_user_chain user_id question = Ok r ->
  source_documents r = [] ->
  cites_ordinal_zero (answer r) = false ->
  cites_oversized_ordinal (answer r) = false ->
  query order get_user_chain question user_id
  = Ok {| resp_answer := answer r; resp_citations := [] |}.
Proof.
  intros Hchain Hdocs Hz Hbig. unfold query. rewrite Hchain. cbn [bind].
  unfold extract_citations. rewrite Hdocs.
  rewrite extract_loop_no_docs; [reflexivity |].
  intros num_str Hin. apply set_iter_elem in Hin.
  exists (decimal_value num_str).
  pose proof (no_oversized_ordinals_convert _ _ Hbig Hin) as Hint.
  split; [exact Hint |]. exact (no_zero_ordinals_positive _ _ _ Hz Hin Hint).
Qed.

Lemma zero_chunks_empty_citations_witness :
  query first_occurrence
        (fun _ _ => Ok (mkChainResult "I don't have that information, see [3]." []))
        "What is entropy?" "user_xyz"
  = Ok {| resp_answer := "I don't have that information, see [3].";
          resp_citations := [] |}.
Proof.
  apply (zero_chunks_empty_citations first_occurrence
           (fun _ _ => Ok (mkChainResult "I don't have that information, see [3]." []))
           "What is entropy?" "user_xyz"
           (mkChainResult "I don't have that information, see [3]." []));
    vm_compute; reflexivity.
Defined.

End Citations.

(** ** The vector store *)

Module VectorStore.

(** An embedding vector; doubles are written as rationals. *)
Definition Vector : Type := list Q.

(** One stored chunk.  The fixed schema gives every chunk an ["id": "uuid"],
    and no listing passes ids to the store, so the store draws one per
    added document.  A uuid is named by its draw index: two ids are equal
    exactly when they come from the same draw. *)
Record Entry : Type := mkEntry {
  entry_id : nat;
  entry_doc : Document;
  entry_embedding : Vector
}.

(** Where an [EduverseVectorStore] keeps its chunks: a Chroma collection,
    or a namespace of a Pinecone index. *)
Inductive Backend : Type :=
| Chroma (collection_name : string)
| Pinecone (index_name namespace : string).

(** Everything the vector databases hold, for all users, and the number of
    uuids drawn so far. *)
Record World : Type := mkWorld {
  chroma : gmap string (list Entry);
  pinecone : gmap (string * string) (list Entry);
  uuids_drawn : nat
}.

Definition empty_world : World := mkWorld ∅ ∅ 0.

(** The chunks of one partition, in insertion order. *)
Definition entries (w : World) (b : Backend) : list Entry :=
  match b with
  | Chroma name => default [] (chroma w !! name)
  | Pinecone idx ns => default [] (pinecone w !! (idx, ns))
  end.

Definition set_entries (b : Backend) (es : list Entry) (w : World) : World :=
  match b with
  | Chroma name => mkWorld (<[name := es]> (chroma w)) (pinecone w) (uuids_drawn w)
  | Pinecone idx ns => mkWorld (chroma w) (<[(idx, ns) := es]> (pinecone w)) (uuids_drawn w)
  end.

(** [EduverseVectorStore.__init__]: the store of [user_id]. *)
Definition init (user_id : string) (use_pinecone : bool) : Backend :=
  if use_pinecone
  then Pinecone "eduverse" (String.append "user_" user_id)
  else Chroma (String.append "user_" user_id).

(** [metadata.source_id == file_id] *)
Definition has_source_id (file_id : string) (e : Entry) : bool :=
  match metadata (entry_doc e) !! "source_id" with
  | Some (MStr s) => String.eqb s file_id
  | _ => false
  end.

#[global] Instance Q_eq_dec : EqDecision Q.
Proof. solve_decision. Defined.

#[global] Instance MetaValue_eq_dec : EqDecision MetaValue.
Proof. solve_decision. Defined.

(** Python objects that can be passed as keyword arguments. *)
#[local] Unset Elimination Schemes.
Inductive PyValue : Type :=
| PNone
| PStr (s : string)
| PInt (z : Z)
| PFloat (q : Q)
| PBool (b : bool)
| PList (items : list PyValue)
| PDict (items : list (string * PyValue)).
#[local] Set Elimination Schemes.

(** What a call receives in its keyword arguments: any keywords, any
    values. *)
Definition Kwargs : Type := list (string * PyValue).

(** Modelled from the spec: what [as_retriever] returns, a retriever bound
    to the store it was asked of, with the keyword arguments of the call
    (the class is LangChain's, not the repository's). *)
Record Retriever : Type := mkRetriever {
  retriever_store : Backend;
  retriever_kwargs : Kwargs
}.

Section Store.

(** The embedding model, which may fail. *)
Variable embedding_function : string -> result Vector.

(** A call to the database behind a store goes to a server and may raise
    before it has had any effect. *)
Variable database_call : Backend -> result unit.

(** The ranking of the database over chunks: similarity to the query
    vector, diversity selection and metadata filter, as the keyword
    arguments ask. *)
Variable similarity_search : Kwargs -> Vector -> list Entry -> list Document.

(** Embed every text; the first failure aborts. *)
Fixpoint embed_documents (docs : list Document) : result (list Vector) :=
  match docs with
  | [] => Ok []
  | d :: rest =>
      let* v := embedding_function (page_content d) in
      let* vs := embed_documents rest in
      Ok (v :: vs)
  end.

(** Entries for [docs] with the uuids drawn from [first] on. *)
Fixpoint new_entries (first : nat) (docs : list Document) (vs : list Vector)
  : list Entry :=
  match docs, vs with
  | d :: docs', v :: vs' => mkEntry first d v :: new_entries (S first) docs' vs'
  | _, _ => []
  end.

(** [store.add_documents(chunks)] with no ids: embed, draw one uuid per
    document, append. *)
Definition add_documents (b : Backend) (chunks : list Document) (w : World)
  : result World :=
  let* vs := embed_documents chunks in
  let es := new_entries (uuids_drawn w) chunks vs in
  let w' := set_entries b (entries w b ++ es) w in
  Ok (mkWorld (chroma w') (pinecone w') (uuids_drawn w + length chunks)%nat).

(** [EduverseVectorStore.add] *)
Definition add (self : Backend) (chunks : list Document) (w : World) : result World :=
  add_documents self chunks w.

(** Modelled from the spec: the metadata filters of the vector index, for
    the equalities [delete_file] uses ("equality ... predicates combined
    conjunctively").  A chunk passes a filter when every key of the filter
    is in its metadata with the filter's value. *)
Definition passes (flt : gmap string MetaValue) (e : Entry) : bool :=
  forallb (fun kv => bool_decide (metadata (entry_doc e) !! kv.1 = Some kv.2))
          (map_to_list flt).

(** Modelled from the spec: [self.store.delete(filter=...)], the delete of
    the vector database, whose code (LangChain's [Chroma] and [Pinecone])
    is not part of the repository.  The contract of the vector index has
    [deleteBySource(id)] remove the chunks whose metadata source id is the
    given one and none with a different id, and has metadata filters of
    equalities combined conjunctively; the operations of a store are scoped
    to its own partition.  The call may raise, with no effect. *)
Definition store_delete (store : Backend) (flt : gmap string MetaValue) (w : World)
  : result World :=
  let* _ := database_call store in
  Ok (set_entries store
        (List.filter (fun e => negb (passes flt e)) (entries w store)) w).

(** [EduverseVectorStore.delete_file] *)
Definition delete_file (self : Backend) (file_id : string) (w : World) : result World :=
  store_delete self {[ "source_id" := MStr file_id ]} w.

(** Modelled from the spec: [self.store.as_retriever], also of the
    library, called with all the keyword arguments [get_retriever] got.  The retriever keeps the store and the keyword arguments,
    whatever they are. *)
Definition as_retriever (store : Backend) (kwargs : Kwargs) : Retriever :=
  mkRetriever store kwargs.

(** [EduverseVectorStore.get_retriever] *)
Definition get_retriever (self : Backend) (kwargs : Kwargs) : Retriever :=
  as_retriever self kwargs.

(** Modelled from the spec: a retriever asked for the documents relevant to
    a query text, which is the search of the vector index.  Namespacing
    makes each user's chunks an isolated logical partition: the query is
    embedded and ranked against the chunks of the partition the store is
    bound to, and no keyword argument selects another one. *)
Definition get_relevant_documents (r : Retriever) (query_text : string) (w : World)
  : result (list Document) :=
  let* qv := embedding_function query_text in
  let* _ := database_call (retriever_store r) in
  Ok (similarity_search (retriever_kwargs r) qv (entries w (retriever_store r))).

(** A call through some user's store. *)
Inductive Call : Type :=
| CallAdd (chunks : list Document)
| CallDeleteFile (file_id : string).

(** One call by [user_id]; a call that raises leaves the stores as they
    were. *)
Definition perform (user_id : string) (use_pinecone : bool) (c : Call) (w : World)
  : World :=
  let self := init user_id use_pinecone in
  let outcome :=
    match c with
    | CallAdd chunks => add self chunks w
    | CallDeleteFile file_id => delete_file self file_id w
    end in
  match outcome with
  | Ok w' => w'
  | Raise _ => w
  end.

Definition perform_all (calls : list (string * bool * Call)) (w : World) : World :=
  fold_left (fun acc '(user_id, use_pinecone, c) => perform user_id use_pinecone c acc)
            calls w.

End Store.

Lemma entries_set_entries_same (b : Backend) (es : list Entry) (w : World) :
  entries (set_entries b es w) b = es.
Proof.
  destruct b; simpl; now rewrite lookup_insert_eq.
Qed.

Lemma entries_set_entries_other (b other : Backend) (es : list Entry) (w : World) :
  other <> b -> entries (set_entries b es w) other = entries w other.
Proof.
  intros Hne. destruct b, other; simpl; try reflexivity.
  - rewrite lookup_insert_ne; [reflexivity | congruence].
  - rewrite lookup_insert_ne; [reflexivity | congruence].
Qed.

Lemma init_injective (u v : string) (p q : bool) :
  u <> v -> init u p <> init v q.
Proof.
  intros Hne Heq. destruct p, q; simpl in Heq; try discriminate;
    injection Heq as Heq; now apply Hne.
Qed.

Section StoreFacts.

Variable embedding_function : string -> result Vector.
Variable database_call : Backend -> result unit.
Variable similarity_search : Kwargs -> Vector -> list Entry -> list Document.

Lemma add_documents_other (b other : Backend) (chunks : list Document) (w w' : World) :
  other <> b ->
  add_documents embedding_function b chunks w = Ok w' ->
  entries w' other = entries w other.
Proof.
  intros Hne. unfold add_documents.
  destruct (embed_documents embedding_function chunks) as [vs |]; simpl; [| discriminate].
  intros [= <-].
  rewrite <- (entries_set_entries_other b other
                (entries w b ++ new_entries (uuids_drawn w) chunks vs) w Hne).
  destruct other; reflexivity.
Qed.

Lemma store_delete_other (b other : Backend) (flt : gmap string MetaValue)
  (w w' : World) :
  other <> b ->
  store_delete database_call b flt w = Ok w' ->
  entries w' other = entries w other.
Proof.
  intros Hne. unfold store_delete.
  destruct (database_call b); cbn [bind]; [| discriminate].
  intros [= <-]. now apply entries_set_entries_other.
Qed.

Lemma perform_other (u v : string) (p q : bool) (c : Call) (w : World) :
  v <> u ->
  entries (perform embedding_function database_call v q c w) (init u p)
  = entries w (init u p).
Proof.
  intros Hne.
  assert (Hb : init u p <> init v q) by (apply init_injective; congruence).
  unfold perform. cbv zeta. destruct c as [chunks | file_id].
  - unfold add.
    destruct (add_documents embedding_function (init v q) chunks w) as [w' |] eqn:Hadd;
      [| reflexivity].
    now apply (add_documents_other (init v q) (init u p) chunks w w').
  - unfold delete_file.
    destruct (store_delete database_call (init v q) _ w) as [w' |] eqn:Hdel;
      [| reflexivity].
    now apply (store_delete_other (init v q) (init u p)
                 {[ "source_id" := MStr file_id ]} w w').
Qed.

Lemma perform_all_other (u : string) (p : bool) (calls : list (string * bool * Call))
  (w : World) :
  Forall (fun c => c.1.1 <> u) calls ->
  entries (perform_all embedding_function database_call calls w) (init u p)
  = entries w (init u p).
Proof.
  revert w. induction calls as [| [[v q] c] calls IH]; intros w Hall; simpl.
  - reflexivity.
  - inversion Hall as [| ? ? Hv Hrest]; subst. simpl in Hv.
    change (entries (perform_all embedding_function database_call calls
                       (perform embedding_function database_call v q c w))
                    (init u p)
            = entries w (init u p)).
    rewrite IH; [| exact Hrest].
    now apply perform_other.
Qed.

(** The filter [delete_file] builds is passed by the chunks whose metadata
    source id is the file's. *)
Lemma passes_source_id (file_id : string) (e : Entry) :
  passes {[ "source_id" := MStr file_id ]} e = has_source_id file_id e.
Proof.
  unfold passes, has_source_id. rewrite map_to_list_singleton.
  cbn [forallb fst snd]. rewrite andb_true_r.
  destruct (metadata (entry_doc e) !! "source_id") as [v |].
  - destruct v; try (apply bool_decide_eq_false; congruence).
    destruct (String.eqb_spec s file_id) as [-> | Hne].
    + now apply bool_decide_eq_true.
    + apply bool_decide_eq_false. congruence.
  - apply bool_decide_eq_false. congruence.
Qed.

Lemma embed_documents_length (docs : list Document) (vs : list Vector) :
  embed_documents embedding_function docs = Ok vs -> length vs = length docs.
Proof.
  revert vs. induction docs as [| d docs IH]; intros vs Hrun; simpl in Hrun.
  - now simplify_eq.
  - destruct (embedding_function (page_content d)); simpl in Hrun; [| discriminate].
    destruct (embed_documents embedding_function docs) as [vs' |]; simpl in Hrun;
      [| discriminate].
    simplify_eq. simpl. f_equal. now apply IH.
Qed.

Lemma new_entries_docs (first : nat) (docs : list Document) (vs : list Vector) :
  length vs = length docs ->
  map entry_doc (new_entries first docs vs) = docs /\
  map entry_id (new_entries first docs vs) = seq first (length docs).
Proof.
  revert first vs. induction docs as [| d docs IH]; intros first [| v vs] Hlen;
    simpl in *; try discriminate; [split; reflexivity |].
  destruct (IH (S first) vs) as [Hd Hi]; [lia |].
  split; f_equal; assumption.
Qed.

Lemma add_documents_appends (b : Backend) (docs : list Document) (w w' : World) :
  add_documents embedding_function b docs w = Ok w' ->
  exists es,
    entries w' b = entries w b ++ es /\
    map entry_doc es = docs /\
    map entry_id es = seq (uuids_drawn w) (length docs) /\
    uuids_drawn w' = (uuids_drawn w + length docs)%nat.
Proof.
  unfold add_documents.
  destruct (embed_documents embedding_function docs) as [vs |] eqn:Hvs; simpl;
    [| discriminate].
  intros [= <-]. exists (new_entries (uuids_drawn w) docs vs).
  destruct (new_entries_docs (uuids_drawn w) docs vs) as [Hd Hi];
    [now apply embed_documents_length |].
  repeat split; try assumption.
  destruct b; simpl; now rewrite lookup_insert_eq.
Qed.

(** C6. [delete_file(file_id)], when the database answers the call,
    removes from the store's partition exactly the chunks whose metadata
    source id is [file_id]: none of them remains, the chunks with another
    source id (or none) are the same as before, in the same order, and
    every other partition is untouched.  When the database call raises,
    [delete_file] raises (the stores are as they were). *)
Theorem delete_file_removes_exactly_the_source
  (self : Backend) (file_id : string) (w : World) :
  (database_call self = Ok tt ->
   exists w',
     delete_file database_call self file_id w = Ok w' /\
     (forall e, e ∈ entries w' self -> has_source_id file_id e = false) /\
     entries w' self
     = List.filter (fun e => negb (has_source_id file_id e)) (entries w self) /\
     (forall e, e ∈ entries w self -> has_source_id file_id e = false ->
                e ∈ entries w' self) /\
     (forall other, other <> self -> entries w' other = entries w other)) /\
  (forall e, database_call self = Raise e ->
             delete_file database_call self file_id w = Raise e).
Proof.
  unfold delete_file, store_delete. split.
  - intros ->. cbn [bind]. eexists. split; [reflexivity |].
    rewrite entries_set_entries_same.
    rewrite (List.filter_ext _ (fun e => negb (has_source_id file_id e)))
      by (intros e; now rewrite passes_source_id).
    repeat split.
    + intros e He. apply list_elem_of_In, filter_In in He as [_ He].
      now apply negb_true_iff in He.
    + intros e He Hs. apply list_elem_of_In, filter_In. split.
      * now apply list_elem_of_In.
      * now rewrite Hs.
    + intros other Hne. now apply entries_set_entries_other.
  - intros e ->. reflexivity.
Qed.

(** C7. Search is scoped to the store's own partition: what a user's
    retriever returns for a query, whatever keyword arguments it was made
    with, is the same before and after any sequence of [add] and
    [delete_file] calls made through other users' stores, and it is the
    same in any two states of the databases that agree on that user's
    partition. *)
Theorem search_is_namespaced
  (user_id : string) (use_pinecone : bool) (kwargs : Kwargs)
  (query_text : string) (calls : list (string * bool * Call)) (w : World) :
  Forall (fun c => c.1.1 <> user_id) calls ->
  get_relevant_documents embedding_function database_call similarity_search
    (get_retriever (init user_id use_pinecone) kwargs) query_text
    (perform_all embedding_function database_call calls w)
  = get_relevant_documents embedding_function database_call similarity_search
      (get_retriever (init user_id use_pinecone) kwargs) query_text w
  /\ forall w2,
       entries w2 (init user_id use_pinecone) = entries w (init user_id use_pinecone) ->
       get_relevant_documents embedding_function database_call similarity_search
         (get_retriever (init user_id use_pinecone) kwargs) query_text w2
       = get_relevant_documents embedding_function database_call similarity_search
           (get_retriever (init user_id use_pinecone) kwargs) query_text w.
Proof.
  intros Hall. unfold get_relevant_documents, get_retriever, as_retriever.
  cbn [retriever_store retriever_kwargs]. split.
  - now rewrite perform_all_other.
  - intros w2 ->. reflexivity.
Qed.

End StoreFacts.

(** A model, a database and a search for concrete runs: the vector is the
    text length, the database answers, the search returns the first [k]
    chunks, [k] read from [search_kwargs] (4 when it is not given). *)
Definition demo_embed (text : string) : result Vector :=
  Ok [inject_Z (Z.of_nat (String.length text))].

Definition demo_database (store : Backend) : result unit := Ok tt.

Definition lookup_kwarg (key : string) (kwargs : Kwargs) : option PyValue :=
  snd <$> List.find (fun kv => String.eqb (fst kv) key) kwargs.

Definition demo_search (kwargs : Kwargs) (qv : Vector) (es : list Entry)
  : list Document :=
  let k :=
    match lookup_kwarg "search_kwargs" kwargs with
    | Some (PDict items) =>
        match lookup_kwarg "k" items with
        | Some (PInt z) => Z.to_nat z
        | _ => 4%nat
        end
    | _ => 4%nat
    end in
  map entry_doc (take k es).

(** The keyword arguments of the base retriever. *)
Definition demo_kwargs : Kwargs :=
  [("search_type", PStr "mmr");
   ("search_kwargs", PDict [("k", PInt 20); ("fetch_k", PInt 50)])].

Definition alice_chunk : Document :=
  mkDocument "Gradient descent minimizes the loss."
    (<["source_id" := MStr "file_a"]> ∅).

Definition bob_chunk : Document :=
  mkDocument "Newton's second law." (<["source_id" := MStr "file_b"]> ∅).

Definition alice_world : World :=
  set_entries (init "alice" false) [mkEntry 0 alice_chunk [36%Q]] (mkWorld ∅ ∅ 1).

Example alice_finds_her_chunk :
  get_relevant_documents demo_embed demo_database demo_search
    (get_retriever (init "alice" false) demo_kwargs) "gradient" alice_world
  = Ok [alice_chunk].
Proof. vm_compute. reflexivity. Qed.

Example delete_file_example :
  delete_file demo_database (init "alice" false) "file_a" alice_world
  = Ok (set_entries (init "alice" false) [] alice_world).
Proof. vm_compute. reflexivity. Qed.

(** A database that is down: the call raises. *)
Example delete_file_database_down :
  delete_file (fun _ => Raise (External "ConnectionError")) (init "alice" false)
    "file_a" alice_world
  = Raise (External "ConnectionError").
Proof. reflexivity. Qed.

Lemma search_is_namespaced_witness :
  get_relevant_documents demo_embed demo_database demo_search
    (get_retriever (init "alice" false) demo_kwargs) "gradient"
    (perform_all demo_embed demo_database
       [("bob", false, CallAdd [bob_chunk]); ("bob", true, CallDeleteFile "file_a")]
       alice_world)
  = get_relevant_documents demo_embed demo_database demo_search
      (get_retriever (init "alice" false) demo_kwargs) "gradient" alice_world
  /\ forall w2,
       entries w2 (init "alice" false) = entries alice_world (init "alice" false) ->
       get_relevant_documents demo_embed demo_database demo_search
         (get_retriever (init "alice" false) demo_kwargs) "gradient" w2
       = get_relevant_documents demo_embed demo_database demo_search
           (get_retriever (init "alice" false) demo_kwargs) "gradient" alice_world.
Proof.
  apply (search_is_namespaced demo_embed demo_database demo_search "alice" false
           demo_kwargs "gradient"
           [("bob", false, CallAdd [bob_chunk]); ("bob", true, CallDeleteFile "file_a")]
           alice_world).
  repeat constructor; simpl; discriminate.
Defined.

End VectorStore.

(** ** The indexing workflow *)

Module Workflow.

Import VectorStore.

(** [IndexingState].  The dict the workflow starts from has no
    [file_path], [documents], [chunks] or [error] key: an absent key is
    [None], and reading it raises [KeyError]. *)
Record IndexingState : Type := mkIndexingState {
  file_id : string;
  user_id : string;
  file_type : string;
  status : string;
  progress : Q;
  file_path : option string;
  documents : option (list Document);
  chunks : option (list Document);
  error : option string
}.

(** [state[key]] *)
Definition state_getitem {A : Type} (key : string) (field : option A) : result A :=
  match field with
  | Some v => Ok v
  | None => Raise (KeyError key)
  end.

(** The state [app.ainvoke] is started with. *)
Definition initial_state (fid uid ftype : string) : IndexingState :=
  {| file_id := fid; user_id := uid; file_type := ftype;
     status := "pending"; progress := 0.0%Q;
     file_path := None; documents := None; chunks := None; error := None |}.

(** The nodes of the graph and its edge table. *)
Inductive Node : Type := download | load | enrich | chunk | embed.

Inductive Target : Type :=
| Goto (n : Node)
| END.

Definition node_eqb (a b : Node) : bool :=
  match a, b with
  | download, download | load, load | enrich, enrich
  | chunk, chunk | embed, embed => true
  | _, _ => false
  end.

(** The [add_edge] calls, in order. *)
Definition edges : list (Node * Target) :=
  [ (download, Goto load); (load, Goto enrich); (enrich, Goto chunk);
    (chunk, Goto embed); (embed, END) ].

(** [set_entry_point] *)
Definition entry_point : Node := download.

Definition successors (n : Node) : list Target :=
  map snd (List.filter (fun e => node_eqb (fst e) n) edges).

(** Where a job is: not started, inside a node, at [END], or stopped by an
    exception. *)
Inductive Stage : Type :=
| Pending
| Running (n : Node)
| Completed
| Failed.

Definition Downloading : Stage := Running download.
Definition Loading : Stage := Running load.
Definition Enriching : Stage := Running enrich.
Definition Chunking : Stage := Running chunk.
Definition Embedding : Stage := Running embed.

Definition stage_of_target (t : Target) : Stage :=
  match t with
  | Goto n => Running n
  | END => Completed
  end.

Definition terminal (s : Stage) : bool :=
  match s with
  | Completed | Failed => true
  | _ => false
  end.

(** One run of the compiled graph over one file. *)
Record Job : Type := mkJob {
  stage : Stage;
  state : IndexingState;
  failure : option exception
}.

Definition new_job (fid uid ftype : string) : Job :=
  {| stage := Pending; state := initial_state fid uid ftype; failure := None |}.

(** [app.ainvoke(input, ...)]: the compiled graph run on an input state.
    A run on an input starts at the entry point, whatever the input holds;
    the second call of the execution listing, made to resume, passes the
    state the first call returned. *)
Definition ainvoke (input : IndexingState) : Job :=
  {| stage := Pending; state := input; failure := None |}.

(** The stage sequence of the specification. *)
Definition linear_sequence : list Stage :=
  [Pending; Downloading; Loading; Enriching; Chunking; Embedding; Completed].

(** [b] comes right after [a] in the sequence. *)
Definition next_in_line (a b : Stage) : Prop :=
  exists i : nat, linear_sequence !! i = Some a /\ linear_sequence !! S i = Some b.

Section Nodes.

(** External calls of the nodes; each may raise. *)
Variable download_from_drive : string -> result string.
Variable pdf_loader_load : string -> result (list Document).
Variable enrich_with_vision : Document -> result Document.
Variable split_documents : Z -> Z -> list Document -> result (list Document).
Variable embedding_function : string -> result Vector.

Definition download_node (st : IndexingState) : result IndexingState :=
  let* path := download_from_drive (file_id st) in
  Ok (mkIndexingState (file_id st) (user_id st) (file_type st) (status st)
        0.2%Q (Some path) (documents st) (chunks st) (error st)).

Definition load_node (st : IndexingState) : result IndexingState :=
  let* path := state_getitem "file_path" (file_path st) in
  let* docs := pdf_loader_load path in
  Ok (mkIndexingState (file_id st) (user_id st) (file_type st) (status st)
        0.4%Q (file_path st) (Some docs) (chunks st) (error st)).

(** The list comprehension of [enrich_node]. *)
Fixpoint enrich_all (docs : list Document) : result (list Document) :=
  match docs with
  | [] => Ok []
  | d :: rest =>
      let* d' := enrich_with_vision d in
      let* rest' := enrich_all rest in
      Ok (d' :: rest')
  end.

Definition enrich_node (st : IndexingState) : result IndexingState :=
  let* docs := state_getitem "documents" (documents st) in
  let* enriched := enrich_all docs in
  Ok (mkIndexingState (file_id st) (user_id st) (file_type st) (status st)
        0.6%Q (file_path st) (Some enriched) (chunks st) (error st)).

Definition chunk_node (st : IndexingState) : result IndexingState :=
  let* docs := state_getitem "documents" (documents st) in
  let* cs := split_documents 500 100 docs in
  Ok (mkIndexingState (file_id st) (user_id st) (file_type st) (status st)
        0.8%Q (file_path st) (documents st) (Some cs) (error st)).

(** The collection [embed_node] writes to. *)
Definition user_collection (st : IndexingState) : Backend :=
  Chroma (String.append "user_" (user_id st)).

(** [embed_node]: the only node that touches the vector database. *)
Definition embed_node (w : World) (st : IndexingState) : result (World * IndexingState) :=
  let vector_store := user_collection st in
  let* cs := state_getitem "chunks" (chunks st) in
  let* w' := add_documents embedding_function vector_store cs w in
  Ok (w', mkIndexingState (file_id st) (user_id st) (file_type st) "completed"
            1.0%Q (file_path st) (documents st) (chunks st) (error st)).

(** [add_node]: the function behind each node name. *)
Definition node_function (n : Node) (w : World) (st : IndexingState)
  : result (World * IndexingState) :=
  match n with
  | download => let* st' := download_node st in Ok (w, st')
  | load => let* st' := load_node st in Ok (w, st')
  | enrich => let* st' := enrich_node st in Ok (w, st')
  | chunk => let* st' := chunk_node st in Ok (w, st')
  | embed => embed_node w st
  end.

(** One step of the graph run: enter the entry point; or run the current
    node and follow its edge, an exception stopping the job where it is.
    A job at [END] or stopped has no step. *)
Definition step (c : World * Job) : option (World * Job) :=
  let '(w, j) := c in
  match stage j with
  | Pending => Some (w, mkJob (Running entry_point) (state j) (failure j))
  | Running n =>
      match node_function n w (state j) with
      | Ok (w', st') =>
          match successors n with
          | [t] => Some (w', mkJob (stage_of_target t) st' (failure j))
          | _ => None
          end
      | Raise e => Some (w, mkJob Failed (state j) (Some e))
      end
  | Completed | Failed => None
  end.

Fixpoint steps (n : nat) (c : World * Job) : option (World * Job) :=
  match n with
  | O => Some c
  | S n' => match step c with
            | Some c' => steps n' c'
            | None => None
            end
  end.

(** [c] is reached from [c0] by steps of the run. *)
Definition reachable (c0 c : World * Job) : Prop :=
  exists n, steps n c0 = Some c.

End Nodes.

(** The progress value the nodes have written when a job is at a stage. *)
Definition progress_at (s : Stage) : option Q :=
  match s with
  | Pending => Some 0.0%Q
  | Running download => Some 0.0%Q
  | Running load => Some 0.2%Q
  | Running enrich => Some 0.4%Q
  | Running chunk => Some 0.6%Q
  | Running embed => Some 0.8%Q
  | Completed => Some 1.0%Q
  | Failed => None
  end.

Definition consistent (j : Job) : Prop :=
  match progress_at (stage j) with
  | Some q => progress (state j) = q
  | None => True
  end.

(** Externals that always succeed, for concrete runs. *)
Definition demo_download (fid : string) : result string :=
  Ok (String.append "/tmp/" fid).

Definition demo_load (path : string) : result (list Document) :=
  Ok [ mkDocument "See Figure 1 for backprop." ∅ ].

Definition demo_enrich (d : Document) : result Document :=
  Ok (mkDocument (String.append (page_content d) " [VISUAL] Diagram.") (metadata d)).

Definition demo_split (size overlap : Z) (docs : list Document) : result (list Document) :=
  Ok docs.

Definition demo_downloading : Job :=
  mkJob Downloading (initial_state "abc123" "user_xyz" "pdf") None.

Definition demo_loading : Job :=
  mkJob Loading
    (mkIndexingState "abc123" "user_xyz" "pdf" "pending" 0.2%Q
       (Some "/tmp/abc123") None None None)
    None.

(** A whole run with these externals: six steps from the new job to
    [END], progress 1.0; and a run whose download raises stops at Failed
    with the progress it had. *)
Example demo_run_completes :
  (fun c => (stage c.2, progress (state c.2)))
    <$> steps demo_download demo_load demo_enrich demo_split demo_embed 6
          (empty_world, new_job "abc123" "user_xyz" "pdf")
  = Some (Completed, 1.0%Q).
Proof. vm_compute. reflexivity. Qed.

Example demo_run_fails :
  (fun c => (stage c.2, progress (state c.2), failure c.2))
    <$> steps (fun _ => Raise (External "NotFound")) demo_load demo_enrich
          demo_split demo_embed 2
          (empty_world, new_job "abc123" "user_xyz" "pdf")
  = Some (Failed, 0.0%Q, Some (External "NotFound")).
Proof. vm_compute. reflexivity. Qed.

Ltac bind_inv H :=
  lazymatch type of H with
  | bind ?e _ = _ =>
      let E := fresh "E" in
      destruct e eqn:E; simpl in H; [bind_inv E; bind_inv H | discriminate H]
  | _ => idtac
  end.

Ltac run_node H :=
  unfold node_function, download_node, load_node, enrich_node, chunk_node,
    embed_node in H;
  cbv zeta in H; bind_inv H; simplify_eq.

Section WorkflowFacts.

Variable download_from_drive : string -> result string.
Variable pdf_loader_load : string -> result (list Document).
Variable enrich_with_vision : Document -> result Document.
Variable split_documents : Z -> Z -> list Document -> result (list Document).
Variable embedding_function : string -> result Vector.

Let node_function' := node_function download_from_drive pdf_loader_load
                        enrich_with_vision split_documents embedding_function.
Let step' := step download_from_drive pdf_loader_load
               enrich_with_vision split_documents embedding_function.
Let steps' := steps download_from_drive pdf_loader_load
                enrich_with_vision split_documents embedding_function.

Lemma node_sets_progress (n : Node) (w w' : World) (st st' : IndexingState) (t : Target) :
  node_function' n w st = Ok (w', st') ->
  successors n = [t] ->
  progress_at (stage_of_target t) = Some (progress st').
Proof.
  intros Hnode Hsucc. subst node_function'.
  destruct n; vm_compute in Hsucc; simplify_eq; run_node Hnode; reflexivity.
Qed.

Lemma step_keeps_consistent (w w' : World) (j j' : Job) :
  consistent j -> step' (w, j) = Some (w', j') -> consistent j'.
Proof.
  intros Hc Hstep. subst step'. unfold step in Hstep.
  destruct (stage j) eqn:Hs; try discriminate.
  - simplify_eq. unfold consistent in *. rewrite Hs in Hc. simpl in *. exact Hc.
  - destruct (node_function _ _ _ _ _ n w (state j)) as [[w1 st1] | e] eqn:Hnode.
    + destruct (successors n) as [| t [| ? ?]] eqn:Hsucc; try discriminate.
      simplify_eq. unfold consistent. simpl.
      now rewrite (node_sets_progress n w w' (state j) st1 t Hnode Hsucc).
    + simplify_eq. exact I.
Qed.

Lemma steps_keep_consistent (n : nat) (c0 c : World * Job) :
  consistent c0.2 -> steps' n c0 = Some c -> consistent c.2.
Proof.
  subst steps'. revert c0. induction n as [| n IH]; intros [w0 j0] Hc Hrun;
    cbn [steps] in Hrun.
  - now simplify_eq.
  - destruct (step download_from_drive pdf_loader_load enrich_with_vision
                split_documents embedding_function (w0, j0))
      as [[w1 j1] |] eqn:Hstep; [| discriminate].
    apply (IH (w1, j1)); [| exact Hrun].
    now apply (step_keeps_consistent w0 w1 j0 j1).
Qed.

Lemma step_shape (w w' : World) (j j' : Job) :
  consistent j -> step' (w, j) = Some (w', j') ->
  (stage j' = Failed \/ next_in_line (stage j) (stage j')) /\
  (progress (state j) <= progress (state j'))%Q.
Proof.
  intros Hc Hstep.
  pose proof (step_keeps_consistent w w' j j' Hc Hstep) as Hc'.
  subst step'. unfold step in Hstep. unfold consistent in Hc, Hc'.
  destruct (stage j) eqn:Hs; try discriminate.
  - simplify_eq. simpl. split; [| apply Qle_refl].
    right. exists 0%nat. split; reflexivity.
  - destruct (node_function _ _ _ _ _ n w (state j)) as [[w1 st1] | e] eqn:Hnode.
    + destruct (successors n) as [| t [| ? ?]] eqn:Hsucc; try discriminate.
      simplify_eq. simpl in *.
      destruct n; vm_compute in Hsucc; simplify_eq; simpl in *;
        rewrite Hc, Hc'; (split; [right | unfold Qle; simpl; lia]).
      * exists 1%nat. split; reflexivity.
      * exists 2%nat. split; reflexivity.
      * exists 3%nat. split; reflexivity.
      * exists 4%nat. split; reflexivity.
      * exists 5%nat. split; reflexivity.
    + simplify_eq. simpl. split; [now left | apply Qle_refl].
Qed.

(** A job that is not at [END] and has not failed always has a next step:
    the run never gets stuck. *)
Lemma step_defined (w : World) (j : Job) :
  terminal (stage j) = false -> exists c, step' (w, j) = Some c.
Proof.
  intros Ht. subst step'. unfold step.
  destruct (stage j) as [| n | |]; try discriminate; [eauto |].
  destruct (node_function _ _ _ _ _ n w (state j)) as [[w1 st1] | e]; [| eauto].
  destruct n; vm_compute; eauto.
Qed.

(** Within one run started from the initial state (status pending,
    progress 0.0), every step takes the job from its stage to the next one
    of Pending, Downloading, Loading, Enriching, Chunking, Embedding,
    Completed, or to Failed, and the progress fraction after the step is at
    least the one before it. *)
Lemma first_run_linear_progress_monotone
  (fid uid ftype : string) (w0 w w' : World) (j j' : Job) :
  reachable download_from_drive pdf_loader_load enrich_with_vision
            split_documents embedding_function
            (w0, new_job fid uid ftype) (w, j) ->
  step download_from_drive pdf_loader_load enrich_with_vision
       split_documents embedding_function (w, j) = Some (w', j') ->
  (stage j' = Failed \/ next_in_line (stage j) (stage j')) /\
  (progress (state j) <= progress (state j'))%Q.
Proof.
  intros [n Hreach] Hstep.
  apply (step_shape w w'); [| exact Hstep].
  apply (steps_keep_consistent n (w0, new_job fid uid ftype) (w, j)); [| exact Hreach].
  reflexivity.
Qed.

Lemma completed_is_last (s : Stage) : ~ next_in_line Completed s.
Proof.
  intros [i [Ha Hb]].
  do 7 (destruct i as [| i]; [vm_compute in Ha, Hb; discriminate |]).
  vm_compute in Ha. discriminate.
Qed.

(** C3. Over the job's lifetime the claim fails on the execution listing.
    Its second call, [app.ainvoke(result, config)], written to resume the
    job, runs the graph on the state the first call returned: a job that
    had reached Completed with progress 1.0 is next at Downloading, which
    is no step along the sequence, and once the download node has run it is
    at Loading with progress 0.2. *)
Theorem second_invocation_restarts_the_job
  (fid uid ftype path : string) (w0 w : World) (j : Job) :
  reachable download_from_drive pdf_loader_load enrich_with_vision
            split_documents embedding_function
            (w0, new_job fid uid ftype) (w, j) ->
  stage j = Completed ->
  download_from_drive (file_id (state j)) = Ok path ->
  exists j1 j2,
    step download_from_drive pdf_loader_load enrich_with_vision
         split_documents embedding_function (w, ainvoke (state j)) = Some (w, j1) /\
    step download_from_drive pdf_loader_load enrich_with_vision
         split_documents embedding_function (w, j1) = Some (w, j2) /\
    stage j1 = Downloading /\ stage j2 = Loading /\
    ~ (stage j1 = Failed \/ next_in_line (stage j) (stage j1)) /\
    (progress (state j2) < progress (state j))%Q.
Proof.
  intros [n Hreach] Hdone Hdl.
  pose proof (steps_keep_consistent n (w0, new_job fid uid ftype) (w, j)
                (eq_refl : consistent (new_job fid uid ftype)) Hreach) as Hc.
  unfold consistent in Hc. cbn [snd] in Hc. rewrite Hdone in Hc. cbn in Hc.
  eexists. eexists. split; [reflexivity |]. split.
  - unfold step, ainvoke, entry_point, node_function, download_node.
    cbn [stage state failure]. rewrite Hdl. cbn [bind]. reflexivity.
  - cbn [stage state progress]. rewrite Hdone, Hc.
    split; [reflexivity |]. split; [reflexivity |]. split.
    + intros [H | H]; [discriminate | exact (completed_is_last _ H)].
    + reflexivity.
Qed.

End WorkflowFacts.

(** *** Chunk ids and repeated embedding *)

(** The entries a call appended to partition [b]. *)
Definition added (before after : World) (b : Backend) : list Entry :=
  drop (length (entries before b)) (entries after b).

(** "Same artifact and same chunks give identical chunk ids on repeated
    runs": the ids [embed_node] gives the chunks of a state do not depend on
    the moment it runs. *)
Definition chunk_ids_deterministic (embedding_function : string -> result Vector)
  : Prop :=
  forall w1 w2 st w1' st1 w2' st2,
    embed_node embedding_function w1 st = Ok (w1', st1) ->
    embed_node embedding_function w2 st = Ok (w2', st2) ->
    map entry_id (added w1 w1' (user_collection st))
    = map entry_id (added w2 w2' (user_collection st)).

(** "Re-running Embedding on an already-chunked set creates no duplicate
    vector entries": a second run over the state the first one left adds
    nothing to the collection. *)
Definition embedding_is_idempotent (embedding_function : string -> result Vector)
  : Prop :=
  forall w st w1 st1 w2 st2,
    embed_node embedding_function w st = Ok (w1, st1) ->
    embed_node embedding_function w1 st1 = Ok (w2, st2) ->
    entries w2 (user_collection st) = entries w1 (user_collection st).

Definition demo_chunked : IndexingState :=
  mkIndexingState "abc123" "user_xyz" "pdf" "pending" 0.8%Q
    (Some "/tmp/abc123")
    (Some [mkDocument "See Figure 1 for backprop." ∅])
    (Some [mkDocument "See Figure 1 for backprop." ∅])
    None.

Definition demo_completed : IndexingState :=
  mkIndexingState "abc123" "user_xyz" "pdf" "completed" 1.0%Q
    (Some "/tmp/abc123")
    (Some [mkDocument "See Figure 1 for backprop." ∅])
    (Some [mkDocument "See Figure 1 for backprop." ∅])
    None.

Definition demo_entry (id : nat) : Entry :=
  mkEntry id (mkDocument "See Figure 1 for backprop." ∅) [26%Q].

Definition demo_embedded_once : World :=
  mkWorld (<["user_user_xyz" := [demo_entry 0]]> ∅) ∅ 1.

Definition demo_embedded_twice : World :=
  mkWorld (<["user_user_xyz" := [demo_entry 0; demo_entry 1]]> ∅) ∅ 2.

Example embed_node_first_run :
  embed_node demo_embed empty_world demo_chunked = Ok (demo_embedded_once, demo_completed).
Proof. vm_compute. reflexivity. Qed.

Example embed_node_second_run :
  embed_node demo_embed demo_embedded_once demo_completed
  = Ok (demo_embedded_twice, demo_completed).
Proof. vm_compute. reflexivity. Qed.

(** C5, as worded, fails on [embed_node]: the same chunk gets id 0 in a
    first run and id 1 in a second one, and after the second run the
    collection holds the chunk twice. *)
Lemma chunk_ids_not_deterministic_embedding_not_idempotent :
  ~ chunk_ids_deterministic demo_embed /\ ~ embedding_is_idempotent demo_embed.
Proof.
  split.
  - intros H.
    specialize (H empty_world demo_embedded_once demo_chunked
                  demo_embedded_once demo_completed
                  demo_embedded_twice demo_completed).
    assert (H1 : embed_node demo_embed empty_world demo_chunked
                 = Ok (demo_embedded_once, demo_completed))
      by (vm_compute; reflexivity).
    assert (H2 : embed_node demo_embed demo_embedded_once demo_chunked
                 = Ok (demo_embedded_twice, demo_completed))
      by (vm_compute; reflexivity).
    specialize (H H1 H2). vm_compute in H. discriminate H.
  - intros H.
    specialize (H empty_world demo_chunked demo_embedded_once demo_completed
                  demo_embedded_twice demo_completed
                  embed_node_first_run embed_node_second_run).
    vm_compute in H. discriminate H.
Qed.

(** C5, amended. The vector store gives every added chunk a fresh uuid,
    whatever the artifact id and the position of the chunk: a run of
    [embed_node] appends one entry per chunk of the state, with the next
    uuids in drawing order, and a second run over the state it left appends
    the same chunks once more under the following uuids, so each chunk is
    then stored twice. *)
Theorem embed_node_twice_stores_twice
  (embedding_function : string -> result Vector)
  (w w1 w2 : World) (st st1 st2 : IndexingState) (cs : list Document) :
  chunks st = Some cs ->
  embed_node embedding_function w st = Ok (w1, st1) ->
  embed_node embedding_function w1 st1 = Ok (w2, st2) ->
  exists e1 e2,
    entries w1 (user_collection st) = entries w (user_collection st) ++ e1 /\
    entries w2 (user_collection st) = entries w (user_collection st) ++ e1 ++ e2 /\
    map entry_doc e1 = cs /\ map entry_doc e2 = cs /\
    map entry_id e1 = seq (uuids_drawn w) (length cs) /\
    map entry_id e2 = seq (uuids_drawn w + length cs) (length cs).
Proof.
  intros Hcs Hrun1 Hrun2.
  unfold embed_node in Hrun1. cbv zeta in Hrun1. rewrite Hcs in Hrun1.
  simpl in Hrun1.
  destruct (add_documents embedding_function (user_collection st) cs w)
    as [w1' |] eqn:Hadd1; simpl in Hrun1; [| discriminate].
  injection Hrun1 as <- <-.
  unfold embed_node in Hrun2. cbv zeta in Hrun2. simpl in Hrun2.
  unfold user_collection in *. cbn [user_id] in *.
  destruct (add_documents embedding_function
              (Chroma (String.append "user_" (user_id st))) cs w1')
    as [w2' |] eqn:Hadd2; simpl in Hrun2; [| discriminate].
  injection Hrun2 as <- _.
  destruct (add_documents_appends _ _ _ _ _ Hadd1) as (e1 & He1 & Hd1 & Hi1 & Hu1).
  destruct (add_documents_appends _ _ _ _ _ Hadd2) as (e2 & He2 & Hd2 & Hi2 & _).
  exists e1, e2. rewrite He2, He1. rewrite Hu1 in Hi2. rewrite <- app_assoc.
  repeat split; assumption.
Qed.

Lemma embed_node_twice_stores_twice_witness :
  exists e1 e2,
    entries demo_embedded_once (user_collection demo_chunked)
    = entries empty_world (user_collection demo_chunked) ++ e1 /\
    entries demo_embedded_twice (user_collection demo_chunked)
    = entries empty_world (user_collection demo_chunked) ++ e1 ++ e2 /\
    map entry_doc e1 = [mkDocument "See Figure 1 for backprop." ∅] /\
    map entry_doc e2 = [mkDocument "See Figure 1 for backprop." ∅] /\
    map entry_id e1 = seq (uuids_drawn empty_world) 1 /\
    map entry_id e2 = seq (uuids_drawn empty_world + 1) 1.
Proof.
  apply (embed_node_twice_stores_twice demo_embed
           empty_world demo_embedded_once demo_embedded_twice
           demo_chunked demo_completed demo_completed
           [mkDocument "See Figure 1 for backprop." ∅]).
  - reflexivity.
  - vm_compute. reflexivity.
  - vm_compute. reflexivity.
Defined.

(** The execution listing, with externals that succeed: the first call
    ends at [END]; the second, made with its result, is back at Loading
    with progress 0.2 after two steps. *)
Definition demo_first_call : Job := mkJob Completed demo_completed None.

Example demo_first_call_reached :
  steps demo_download demo_load (fun d => Ok d) demo_split demo_embed 6
        (empty_world, new_job "abc123" "user_xyz" "pdf")
  = Some (demo_embedded_once, demo_first_call).
Proof. vm_compute. reflexivity. Qed.

Example demo_second_call :
  (fun c => (stage c.2, status (state c.2), progress (state c.2)))
    <$> steps demo_download demo_load (fun d => Ok d) demo_split demo_embed 2
          (demo_embedded_once, ainvoke (state demo_first_call))
  = Some (Loading, "completed", 0.2%Q).
Proof. vm_compute. reflexivity. Qed.

Lemma second_invocation_restarts_the_job_witness :
  exists j1 j2,
    step demo_download demo_load (fun d => Ok d) demo_split demo_embed
         (demo_embedded_once, ainvoke (state demo_first_call))
    = Some (demo_embedded_once, j1) /\
    step demo_download demo_load (fun d => Ok d) demo_split demo_embed
         (demo_embedded_once, j1)
    = Some (demo_embedded_once, j2) /\
    stage j1 = Downloading /\ stage j2 = Loading /\
    ~ (stage j1 = Failed \/ next_in_line (stage demo_first_call) (stage j1)) /\
    (progress (state j2) < progress (state demo_first_call))%Q.
Proof.
  apply (second_invocation_restarts_the_job
           demo_download demo_load (fun d => Ok d) demo_split demo_embed
           "abc123" "user_xyz" "pdf" "/tmp/abc123"
           empty_world demo_embedded_once demo_first_call).
  - exists 6%nat. vm_compute. reflexivity.
  - reflexivity.
  - reflexivity.
Defined.

End Workflow.

(** ** Job submission *)

Module JobTable.

Import Workflow.

(** Modelled from the spec: the ingestion job record of section 3, with the
    two fields the submission rule reads (artifact id, current stage); the
    repository has no job table, so this record and every definition of
    this module follow the specification's sections 3, 5, 6 and 9. *)
Record IngestionJob : Type := mkIngestionJob {
  artifact_id : string;
  current_stage : Stage
}.

(** Modelled from the spec: a job is active while its stage is not terminal
    (neither Completed nor Failed). *)
Definition active (j : IngestionJob) : bool := negb (terminal (current_stage j)).

(** Modelled from the spec: does the persistent job table (a job's id is its
    row number) hold an active job for the artifact? *)
Definition has_active (a : string) (t : list IngestionJob) : bool :=
  existsb (fun j => String.eqb (artifact_id j) a && active j) t.

(** Modelled from the spec: the unique constraint of the job table, at most
    one active job per artifact id. *)
Definition unique_active (t : list IngestionJob) : Prop :=
  forall x y jx jy,
    t !! x = Some jx -> t !! y = Some jy ->
    active jx = true -> active jy = true ->
    artifact_id jx = artifact_id jy -> x = y.

(** Modelled from the spec: what [submit] answers. *)
Inductive SubmitResult : Type :=
| Accepted (job_id : nat)
| AlreadyInProgress.

(** Modelled from the spec: [submit(artifactId)].  A submission while a job
    for the artifact is in flight is rejected and leaves the table as it
    is; otherwise a Pending job is appended and its id returned. *)
Definition submit (a : string) (t : list IngestionJob)
  : SubmitResult * list IngestionJob :=
  if has_active a t then (AlreadyInProgress, t)
  else (Accepted (length t), t ++ [mkIngestionJob a Pending]).

(** Modelled from the spec: the stage that follows in the linear
    sequence. *)
Definition next_stage (s : Stage) : Stage :=
  match s with
  | Pending => Downloading
  | Running download => Loading
  | Running load => Enriching
  | Running enrich => Chunking
  | Running chunk => Embedding
  | Running embed => Completed
  | Completed => Completed
  | Failed => Failed
  end.

(** Modelled from the spec: write a stage into row [i]. *)
Definition set_stage (i : nat) (s : Stage) (t : list IngestionJob) : list IngestionJob :=
  match t !! i with
  | Some j => <[i := mkIngestionJob (artifact_id j) s]> t
  | None => t
  end.

(** Modelled from the spec: what can happen to the table.  A worker
    finishes the current stage of an active job ([Advance]) or the stage
    fails ([Fail]); a Failed job is resumed at a stage ([Resume]), which the
    unique constraint refuses while another job of the artifact is active.
    Cancellation is left out: the specification names no stage for it. *)
Inductive JobEvent : Type :=
| Submit (a : string)
| Advance (i : nat)
| Fail (i : nat)
| Resume (i : nat) (s : Stage).

Definition apply_event (e : JobEvent) (t : list IngestionJob) : list IngestionJob :=
  match e with
  | Submit a => (submit a t).2
  | Advance i =>
      match t !! i with
      | Some j => if active j then set_stage i (next_stage (current_stage j)) t else t
      | None => t
      end
  | Fail i =>
      match t !! i with
      | Some j => if active j then set_stage i Failed t else t
      | None => t
      end
  | Resume i s =>
      match t !! i with
      | Some j =>
          match current_stage j with
          | Failed =>
              if negb (terminal s) && negb (has_active (artifact_id j) t)
              then set_stage i s t else t
          | _ => t
          end
      | None => t
      end
  end.

(** The table after a sequence of events, oldest first. *)
Definition replay (events : list JobEvent) (t : list IngestionJob) : list IngestionJob :=
  fold_left (fun acc e => apply_event e acc) events t.

(** Jobs of artifact [a] in the table, and those of them that completed. *)
Definition jobs_for (a : string) (t : list IngestionJob) : nat :=
  length (List.filter (fun j => String.eqb (artifact_id j) a) t).

Definition completed_for (a : string) (t : list IngestionJob) : nat :=
  length (List.filter (fun j => String.eqb (artifact_id j) a &&
                                match current_stage j with Completed => true | _ => false end) t).

(** Submissions of artifact [a] among [events] that were accepted, the
    events being applied to [t] in order. *)
Fixpoint accepted_for (a : string) (events : list JobEvent) (t : list IngestionJob) : nat :=
  match events with
  | [] => 0
  | e :: rest =>
      (match e with
       | Submit b =>
           match (submit b t).1 with
           | Accepted _ => if String.eqb b a then 1 else 0
           | AlreadyInProgress => 0
           end
       | _ => 0
       end + accepted_for a rest (apply_event e t))%nat
  end.

(** The scenario of the specification: the artifact is submitted, its job
    runs up to Enriching, the artifact is submitted again, the job runs to
    the end. *)
Definition scenario : list JobEvent :=
  [Submit "abc123"; Advance 0; Advance 0; Advance 0;
   Submit "abc123";
   Advance 0; Advance 0; Advance 0].

Example scenario_enriching :
  replay (firstn 4 scenario) [] = [mkIngestionJob "abc123" Enriching].
Proof. reflexivity. Qed.

Example scenario_second_submission_rejected :
  submit "abc123" (replay (firstn 4 scenario) [])
  = (AlreadyInProgress, [mkIngestionJob "abc123" Enriching]).
Proof. reflexivity. Qed.

Example scenario_one_completed :
  replay scenario [] = [mkIngestionJob "abc123" Completed].
Proof. reflexivity. Qed.

Lemma has_active_true (a : string) (t : list IngestionJob) :
  has_active a t = true <->
  exists i j, t !! i = Some j /\ artifact_id j = a /\ active j = true.
Proof.
  unfold has_active. rewrite existsb_exists. split.
  - intros (j & Hin & Hj). apply andb_true_iff in Hj as [Ha Hact].
    apply list_elem_of_In, list_elem_of_lookup in Hin as [i Hi].
    exists i, j. repeat split; [exact Hi | now apply String.eqb_eq | exact Hact].
  - intros (i & j & Hi & Ha & Hact). exists j. split.
    + apply list_elem_of_In, list_elem_of_lookup. now exists i.
    + apply andb_true_iff. split; [now apply String.eqb_eq | exact Hact].
Qed.

Lemma lookup_set_stage_eq (i : nat) (s : Stage) (t : list IngestionJob) (j : IngestionJob) :
  t !! i = Some j -> set_stage i s t !! i = Some (mkIngestionJob (artifact_id j) s).
Proof.
  intros Hi. unfold set_stage. rewrite Hi.
  apply list_lookup_insert_eq. now apply lookup_lt_Some in Hi.
Qed.

Lemma lookup_set_stage_ne (i x : nat) (s : Stage) (t : list IngestionJob) :
  x <> i -> set_stage i s t !! x = t !! x.
Proof.
  intros Hne. unfold set_stage. destruct (t !! i); [| reflexivity].
  apply list_lookup_insert_ne. congruence.
Qed.

(** Writing a stage keeps the constraint when the row was active already, or
    becomes inactive, or no job of its artifact is active. *)
Lemma unique_set_stage (i : nat) (s : Stage) (t : list IngestionJob) (j : IngestionJob) :
  t !! i = Some j ->
  (terminal s = false -> active j = true \/ has_active (artifact_id j) t = false) ->
  unique_active t -> unique_active (set_stage i s t).
Proof.
  intros Hi Hguard Huniq x y jx jy Hx Hy Hax Hay Hart.
  assert (Hclash : forall z jz,
             z <> i -> t !! z = Some jz -> active jz = true ->
             artifact_id jz = artifact_id j -> terminal s = false -> z = i).
  { intros z jz Hz Hlz Haz Hartz Hs.
    destruct (Hguard Hs) as [Hact | Hnone].
    - exact (Huniq z i jz j Hlz Hi Haz Hact Hartz).
    - exfalso. apply not_true_iff_false in Hnone. apply Hnone.
      apply has_active_true. exists z, jz. auto. }
  destruct (decide (x = i)) as [-> | Hxi]; destruct (decide (y = i)) as [-> | Hyi];
    try reflexivity.
  - rewrite (lookup_set_stage_eq i s t j Hi) in Hx. injection Hx as <-.
    rewrite lookup_set_stage_ne in Hy by exact Hyi.
    symmetry. apply (Hclash y jy Hyi Hy Hay); [now symmetry |].
    unfold active in Hax. simpl in Hax. now apply negb_true_iff in Hax.
  - rewrite (lookup_set_stage_eq i s t j Hi) in Hy. injection Hy as <-.
    rewrite lookup_set_stage_ne in Hx by exact Hxi.
    apply (Hclash x jx Hxi Hx Hax); [exact Hart |].
    unfold active in Hay. simpl in Hay. now apply negb_true_iff in Hay.
  - rewrite lookup_set_stage_ne in Hx by exact Hxi.
    rewrite lookup_set_stage_ne in Hy by exact Hyi.
    exact (Huniq x y jx jy Hx Hy Hax Hay Hart).
Qed.

Lemma unique_submit (a : string) (t : list IngestionJob) :
  unique_active t -> unique_active (submit a t).2.
Proof.
  intros Huniq. unfold submit.
  destruct (has_active a t) eqn:Hact; simpl; [exact Huniq |].
  assert (Hfree : forall z jz, t !! z = Some jz -> active jz = true ->
                               artifact_id jz = a -> False).
  { intros z jz Hz Haz Hartz. apply not_true_iff_false in Hact. apply Hact.
    apply has_active_true. exists z, jz. auto. }
  intros x y jx jy Hx Hy Hax Hay Hart.
  apply lookup_app_Some in Hx as [Hx | [Hlx Hx]];
    apply lookup_app_Some in Hy as [Hy | [Hly Hy]].
  - exact (Huniq x y jx jy Hx Hy Hax Hay Hart).
  - exfalso. apply list_lookup_singleton_Some in Hy as [_ <-].
    exact (Hfree x jx Hx Hax Hart).
  - exfalso. apply list_lookup_singleton_Some in Hx as [_ <-].
    apply (Hfree y jy Hy Hay). now symmetry.
  - apply list_lookup_singleton_Some in Hx as [Hx0 _].
    apply list_lookup_singleton_Some in Hy as [Hy0 _]. lia.
Qed.

Lemma unique_apply_event (e : JobEvent) (t : list IngestionJob) :
  unique_active t -> unique_active (apply_event e t).
Proof.
  intros Huniq. destruct e as [a | i | i | i s]; simpl.
  - now apply unique_submit.
  - destruct (t !! i) as [j |] eqn:Hi; [| exact Huniq].
    destruct (active j) eqn:Hact; [| exact Huniq].
    apply (unique_set_stage i _ t j Hi); [now left | exact Huniq].
  - destruct (t !! i) as [j |] eqn:Hi; [| exact Huniq].
    destruct (active j) eqn:Hact; [| exact Huniq].
    apply (unique_set_stage i _ t j Hi); [now left | exact Huniq].
  - destruct (t !! i) as [j |] eqn:Hi; [| exact Huniq].
    destruct (current_stage j); try exact Huniq.
    destruct (negb (terminal s) && negb (has_active (artifact_id j) t)) eqn:Hg;
      [| exact Huniq].
    apply andb_true_iff in Hg as [_ Hnone]. apply negb_true_iff in Hnone.
    apply (unique_set_stage i _ t j Hi); [now right | exact Huniq].
Qed.

Lemma unique_run (events : list JobEvent) (t : list IngestionJob) :
  unique_active t -> unique_active (replay events t).
Proof.
  revert t. induction events as [| e events IH]; intros t Huniq; simpl.
  - exact Huniq.
  - apply IH. now apply unique_apply_event.
Qed.

Lemma jobs_for_insert (a : string) (i : nat) (t : list IngestionJob) (j j' : IngestionJob) :
  t !! i = Some j -> artifact_id j' = artifact_id j ->
  jobs_for a (<[i := j']> t) = jobs_for a t.
Proof.
  unfold jobs_for. revert i. induction t as [| h t IH]; intros i Hi Hart; [discriminate |].
  destruct i as [| i]; simpl in *.
  - injection Hi as ->. rewrite Hart.
    destruct (String.eqb (artifact_id j) a); reflexivity.
  - specialize (IH i Hi Hart).
    destruct (String.eqb (artifact_id h) a); simpl; now rewrite IH.
Qed.

Lemma jobs_for_set_stage (a : string) (i : nat) (s : Stage) (t : list IngestionJob) :
  jobs_for a (set_stage i s t) = jobs_for a t.
Proof.
  unfold set_stage. destruct (t !! i) as [j |] eqn:Hi; [| reflexivity].
  now apply (jobs_for_insert a i t j).
Qed.

Lemma jobs_for_app (a : string) (t u : list IngestionJob) :
  jobs_for a (t ++ u) = (jobs_for a t + jobs_for a u)%nat.
Proof.
  unfold jobs_for. now rewrite List.filter_app, length_app.
Qed.

Lemma jobs_for_run (a : string) (events : list JobEvent) (t : list IngestionJob) :
  jobs_for a (replay events t) = (jobs_for a t + accepted_for a events t)%nat.
Proof.
  revert t. induction events as [| e events IH]; intros t; simpl; [lia |].
  change (jobs_for a (replay events (apply_event e t))
          = (jobs_for a t
             + (match e with
                | Submit b =>
                    match (submit b t).1 with
                    | Accepted _ => if String.eqb b a then 1 else 0
                    | AlreadyInProgress => 0
                    end
                | _ => 0
                end + accepted_for a events (apply_event e t)))%nat).
  rewrite IH.
  destruct e as [b | i | i | i s]; simpl.
  - unfold submit. destruct (has_active b t); simpl; [lia |].
    rewrite jobs_for_app. unfold jobs_for at 2. simpl.
    destruct (String.eqb b a); simpl; lia.
  - destruct (t !! i) as [j |]; [| lia].
    destruct (active j); [| lia]. rewrite jobs_for_set_stage. lia.
  - destruct (t !! i) as [j |]; [| lia].
    destruct (active j); [| lia]. rewrite jobs_for_set_stage. lia.
  - destruct (t !! i) as [j |]; [| lia].
    destruct (current_stage j); try lia.
    destruct (negb (terminal s) && negb (has_active (artifact_id j) t)); [| lia].
    rewrite jobs_for_set_stage. lia.
Qed.

Lemma completed_le_jobs (a : string) (t : list IngestionJob) :
  (completed_for a t <= jobs_for a t)%nat.
Proof.
  unfold completed_for, jobs_for. induction t as [| j t IH]; simpl; [lia |].
  destruct (String.eqb (artifact_id j) a); simpl; [| exact IH].
  destruct (current_stage j); simpl; lia.
Qed.

(** C4. In every state of the job table reached from the empty table there
    is at most one active job per artifact id; submitting an artifact that
    has a job in flight answers "already in progress" and leaves the table
    as it is (no duplicate is queued), while an artifact with no job in
    flight is accepted; and the jobs of an artifact that have reached
    Completed are never more than its accepted submissions, so of two
    submissions of which the second came while the first was in flight only
    one job completes. *)
Theorem one_active_job_per_artifact (events : list JobEvent) :
  unique_active (replay events []) /\
  (forall a i j,
      replay events [] !! i = Some j -> artifact_id j = a -> active j = true ->
      submit a (replay events []) = (AlreadyInProgress, replay events [])) /\
  (forall a,
      (forall i j, replay events [] !! i = Some j -> artifact_id j = a -> active j = false) ->
      submit a (replay events [])
      = (Accepted (length (replay events [])),
         replay events [] ++ [mkIngestionJob a Pending])) /\
  (forall a, (completed_for a (replay events []) <= accepted_for a events [])%nat).
Proof.
  split; [| split; [| split]].
  - apply unique_run. intros x y jx jy Hx. discriminate Hx.
  - intros a i j Hi Ha Hact. unfold submit.
    assert (Hhas : has_active a (replay events []) = true)
      by (apply has_active_true; exists i, j; auto).
    now rewrite Hhas.
  - intros a Hnone. unfold submit.
    destruct (has_active a (replay events [])) eqn:Hhas; [| reflexivity].
    apply has_active_true in Hhas as (i & j & Hi & Ha & Hact).
    rewrite (Hnone i j Hi Ha) in Hact. discriminate.
  - intros a. pose proof (completed_le_jobs a (replay events [])) as Hle.
    rewrite jobs_for_run in Hle. unfold jobs_for in Hle at 1. simpl in Hle. lia.
Qed.

End JobTable.

(** ** The chunker *)

Module Chunker.

Local Open Scope nat_scope.

(** Modelled from the spec: the characters of [text] from offset [s] up to,
    not including, offset [e].  The repository has no chunker of its own
    ([chunk_node] hands the documents to an external text splitter), so the
    definitions of this module follow section 4.3 of the specification;
    units are characters. *)
Definition slice (text : list ascii) (s e : nat) : list ascii :=
  take (e - s) (drop s text).

Section Chunker.

(** The configured budget and overlap, and the tolerance window, all in
    characters.  The window and the overlap must fit in the budget for a
    chunk to advance. *)
Variables budget overlap tolerance : nat.
Hypothesis valid : (overlap + tolerance < budget)%nat.

(** The characters that end a sentence. *)
Variable sentence_end : ascii -> bool.

(** The text of one normalized segment. *)
Variable text : list ascii.

(** Modelled from the spec: a cut at offset [p] is at a sentence boundary
    when the character before it ends a sentence. *)
Definition boundary (p : nat) : bool :=
  match p with
  | O => false
  | S q => match text !! q with
           | Some c => sentence_end c
           | None => false
           end
  end.

(** Modelled from the spec: the last sentence boundary among the offsets
    [lo], ..., [lo + width]. *)
Fixpoint last_boundary (lo width : nat) : option nat :=
  match width with
  | O => if boundary lo then Some lo else None
  | S w => if boundary (lo + S w) then Some (lo + S w) else last_boundary lo w
  end.

(** Modelled from the spec: the tolerance window of a chunk that starts at
    [start] is the last [tolerance] offsets up to the budget. *)
Definition in_window (start p : nat) : Prop :=
  (start + (budget - tolerance) <= p <= start + budget)%nat.

(** Modelled from the spec: where the chunk that starts at [start] is cut
    when the rest of the text exceeds the budget: at the last sentence
    boundary of the tolerance window, or, when the window has none, at the
    budget (hard character split). *)
Definition cut_point (start : nat) : nat :=
  match last_boundary (start + (budget - tolerance)) tolerance with
  | Some p => p
  | None => (start + budget)%nat
  end.

Lemma last_boundary_Some (lo w p : nat) :
  last_boundary lo w = Some p -> (lo <= p <= lo + w)%nat /\ boundary p = true.
Proof.
  induction w as [| w IH]; simpl.
  - destruct (boundary lo) eqn:Hb; [| discriminate].
    intros [= <-]. split; [lia | exact Hb].
  - destruct (boundary (lo + S w)) eqn:Hb.
    + intros [= <-]. split; [lia | exact Hb].
    + intros H. destruct (IH H) as [Hr Hp]. split; [lia | exact Hp].
Qed.


Lemma cut_point_window (start : nat) : in_window start (cut_point start).
Proof.
  unfold cut_point, in_window.
  destruct (last_boundary _ _) as [p |] eqn:Hlb; [| lia].
  apply last_boundary_Some in Hlb. lia.
Qed.

(** Modelled from the spec: the spans [(start, end)] of the chunks from
    offset [start] on.  A rest that fits in the budget is the last chunk;
    otherwise the chunk is cut at [cut_point] and the next one starts
    [overlap] characters before the cut. *)
Equations? chunk_spans (start : nat) : list (nat * nat)
  by wf (length text - start)%nat lt :=
  chunk_spans start with le_lt_dec (length text - start) budget := {
    | left _ => [(start, length text)]
    | right _ => (start, cut_point start) :: chunk_spans (cut_point start - overlap) }.
Proof.
  pose proof (cut_point_window start) as Hw. unfold in_window in Hw. lia.
Qed.

(** Modelled from the spec: the spans of the chunks of the segment (none
    for an empty text) and the chunk texts. *)
Definition spans : list (nat * nat) :=
  match text with
  | [] => []
  | _ :: _ => chunk_spans 0
  end.

Definition chunks : list (list ascii) :=
  map (fun sp => slice text sp.1 sp.2) spans.







End Chunker.

(** A concrete configuration: budget 10, overlap 2, tolerance 3, sentences
    end with a full stop. *)
Definition full_stop (c : ascii) : bool := Ascii.eqb c "."%char.

Lemma demo_valid : (2 + 3 < 10)%nat.
Proof. lia. Qed.

Definition demo_text : list ascii :=
  list_ascii_of_string "Hello world. This is a test of it. And more words follow here ok.".

Example demo_spans :
  spans 10 2 3 demo_valid full_stop demo_text
  = [(0, 10); (8, 18); (16, 26); (24, 34); (32, 42); (40, 50); (48, 58); (56, 65)]%nat.
Proof. vm_compute. reflexivity. Qed.

Example demo_chunk_at_boundary :
  string_of_list_ascii <$> chunks 10 2 3 demo_valid full_stop demo_text !! 3%nat
  = Some "est of it.".
Proof. vm_compute. reflexivity. Qed.


End Chunker.

(** ** More on the settings page *)

Module SettingsFacts.

Import SettingsPage.

(** The decimal numeral of an integer, as the page shows a number in an
    input ([value={topK}]): ["42"], ["-7"], ["0"]. *)
Definition numeral (z : Z) : string :=
  DecimalString.NilEmpty.string_of_int (Z.to_int z).

Ltac eval_digit :=
  repeat match goal with
         | |- context [JS.digit_value 10 ?c] =>
             let v := eval vm_compute in (JS.digit_value 10 c) in
             change (JS.digit_value 10 c) with v
         end.

Lemma digits_prefix_acc (d : Decimal.uint) (acc : positive) :
  JS.digits_prefix 10 (Some (Z.pos acc)) (DecimalString.NilEmpty.string_of_uint d)
  = Some (Z.pos (Pos.of_uint_acc d acc)).
Proof.
  revert acc. induction d; intros acc;
    cbn [DecimalString.NilEmpty.string_of_uint JS.digits_prefix Pos.of_uint_acc];
    try reflexivity; eval_digit; cbn [default];
    match goal with
    | |- JS.digits_prefix 10 (Some ?a) _ = Some (Z.pos (Pos.of_uint_acc _ ?b)) =>
        replace a with (Z.pos b) by (unfold id; lia); apply IHd
    end.
Qed.

Lemma digits_prefix_zero (d : Decimal.uint) :
  JS.digits_prefix 10 (Some 0) (DecimalString.NilEmpty.string_of_uint d)
  = Some (Z.of_N (Pos.of_uint d)).
Proof.
  induction d;
    cbn [DecimalString.NilEmpty.string_of_uint JS.digits_prefix Pos.of_uint];
    try reflexivity; eval_digit; cbn [default from_option id];
    try (rewrite <- IHd; reflexivity);
    apply digits_prefix_acc.
Qed.

Lemma digits_prefix_first (d : Decimal.uint) :
  d <> Decimal.Nil ->
  JS.digits_prefix 10 None (DecimalString.NilEmpty.string_of_uint d)
  = Some (Z.of_uint d).
Proof.
  intros Hd. unfold Z.of_uint. rewrite <- digits_prefix_zero.
  destruct d; [contradiction | ..]; reflexivity.
Qed.

Lemma trim_start_ascii (c : ascii) (rest : string) :
  (Utf8.byte c <? 128) = true ->
  JS.is_white_space (Utf8.byte c) = false ->
  JS.trim_start (String c rest) = String c rest.
Proof.
  intros Hc Hw. unfold JS.trim_start.
  cbn [String.length JS.trim_start_fuel]. unfold Utf8.uncons. cbv zeta.
  rewrite Hc. cbn [Utf8.continuation Utf8.scalar_value]. now rewrite Hw.
Qed.

Lemma parseInt_uint (d : Decimal.uint) :
  d <> Decimal.Nil ->
  JS.parseInt (DecimalString.NilEmpty.string_of_uint d) = JS.of_Z (Z.of_uint d) /\
  JS.parseInt (String "-" (DecimalString.NilEmpty.string_of_uint d))
  = (if Z.of_uint d =? 0 then JS.NegZero else JS.of_Z (- Z.of_uint d)).
Proof.
  intros Hd. pose proof (digits_prefix_first d Hd) as H.
  destruct d as [| d | d | d | d | d | d | d | d | d | d]; [contradiction | ..];
    try (destruct d);
    cbn [DecimalString.NilEmpty.string_of_uint] in H |- *;
    unfold JS.parseInt;
    rewrite !trim_start_ascii by reflexivity;
    cbv beta iota zeta; rewrite H; cbv beta iota;
    change (1 <? 0) with false; change (-1 <? 0) with true;
    rewrite ?andb_false_r, ?andb_true_r;
    (split; [f_equal; lia |]);
    match goal with
    | |- (if ?c then _ else _) = _ => destruct c; [reflexivity | f_equal; lia]
    end.
Qed.

Lemma to_uint_not_nil (p : positive) : Pos.to_uint p <> Decimal.Nil.
Proof.
  intros Hnil. pose proof (DecimalPos.Unsigned.of_to p) as Hp.
  rewrite Hnil in Hp. discriminate Hp.
Qed.

(** The numeral of an integer parses to the double nearest to it. *)
Lemma parseInt_numeral (z : Z) : JS.parseInt (numeral z) = JS.of_Z z.
Proof.
  unfold numeral. destruct z as [| p | p]; [vm_compute; reflexivity | |];
    cbn [Z.to_int DecimalString.NilEmpty.string_of_int];
    destruct (parseInt_uint (Pos.to_uint p) (to_uint_not_nil p)) as [Hpos Hneg].
  - rewrite Hpos. f_equal. unfold Z.of_uint.
    now rewrite DecimalPos.Unsigned.of_to.
  - rewrite Hneg. unfold Z.of_uint. rewrite DecimalPos.Unsigned.of_to.
    reflexivity.
Qed.

(** Up to 2^53 in magnitude an integer is its own double. *)
Lemma of_Z_exact (z : Z) : Z.abs z <= 2 ^ 53 -> JS.of_Z z = JS.Int z.
Proof.
  intros Hz. change (2 ^ 53) with 9007199254740992 in Hz.
  destruct (Z.eq_dec (Z.abs z) 9007199254740992) as [Heq | Hne].
  - assert (z = 9007199254740992 \/ z = -9007199254740992) as [-> | ->] by lia;
      vm_compute; reflexivity.
  - unfold JS.of_Z, JS.round53. change (2 ^ 53) with 9007199254740992.
    destruct (Z.abs z <? 9007199254740992) eqn:Hlt;
      [| apply Z.ltb_ge in Hlt; lia].
    destruct (2 ^ 1024 <=? Z.abs z) eqn:Hbig.
    + apply Z.leb_le in Hbig.
      assert (2 ^ 53 < 2 ^ 1024) by (apply Z.pow_lt_mono_r; lia).
      change (2 ^ 53) with 9007199254740992 in *. lia.
    + f_equal. rewrite Z.mul_comm. apply Z.abs_sgn.
Qed.

Lemma max_Int (a b : Z) : JS.max (JS.Int a) (JS.Int b) = JS.Int (Z.max a b).
Proof.
  unfold JS.max. cbn.
  destruct (a <? b) eqn:Hab; [apply Z.ltb_lt in Hab; f_equal; lia |].
  apply Z.ltb_ge in Hab.
  destruct (b <? a) eqn:Hba; [apply Z.ltb_lt in Hba |  apply Z.ltb_ge in Hba];
    f_equal; lia.
Qed.

Lemma run_keeps_topK (events : list Event) (s : State) :
  topK_at_least_1 s -> topK_at_least_1 (run events s).
Proof.
  revert s. induction events as [| e events IH]; intros s Hs; simpl.
  - exact Hs.
  - apply IH. now apply handle_keeps_topK.
Qed.

Definition is_api_key_input (e : Event) : bool :=
  match e with
  | ApiKeyInput _ => true
  | _ => false
  end.

(** 2^53 + 1 is no double: typed into the Top-K box it arrives as 2^53. *)
Example typed_2_53_plus_1 :
  topK (handle (TopKInput "9007199254740993") initial) = JS.Int 9007199254740992.
Proof. vm_compute. reflexivity. Qed.

(** X1. Typing the decimal numeral of an integer of magnitude at most 2^53
    into the Top-K box sets Top-K to that integer, or to 1 when the integer
    is below 1; the chunk size slider, whose value is the numeral of its
    position, sets the chunk size to that position (never to NaN).  Every
    other cell of the page is left as it was. *)
Theorem typed_numerals_are_read_back (z : Z) (s : State) :
  Z.abs z <= 2 ^ 53 ->
  handle (TopKInput (numeral z)) s = setTopK (JS.Int (Z.max 1 z)) s /\
  handle (ChunkSizeInput (numeral z)) s = setChunkSize (JS.Int z) s.
Proof.
  intros Hz. cbn [handle]. rewrite parseInt_numeral, (of_Z_exact z Hz).
  split; [| reflexivity].
  f_equal. unfold JS.or, JS.truthy.
  destruct (Z.eqb_spec z 0) as [-> | Hne]; cbn [negb]; rewrite max_Int; f_equal; lia.
Qed.

Lemma typed_numerals_are_read_back_witness :
  handle (TopKInput (numeral 42)) initial = setTopK (JS.Int (Z.max 1 42)) initial /\
  handle (ChunkSizeInput (numeral 42)) initial = setChunkSize (JS.Int 42) initial.
Proof.
  apply (typed_numerals_are_read_back 42 initial). vm_compute. discriminate.
Defined.

(** X2. No handler other than the API key input writes the API key: after
    any sequence of events with no typing in the key field (resets,
    cancels, saves, sliders, Top-K edits, toast events, visibility toggles)
    the key is the one the run started with. *)
Theorem api_key_only_changed_by_typing (events : list Event) (s : State) :
  forallb (fun e => negb (is_api_key_input e)) events = true ->
  apiKey (run events s) = apiKey s.
Proof.
  revert s. induction events as [| e events IH]; intros s Hall; simpl in *.
  - reflexivity.
  - apply andb_true_iff in Hall as [He Hrest].
    change (apiKey (run events (handle e s)) = apiKey s).
    rewrite IH by exact Hrest.
    destruct e; try reflexivity. discriminate He.
Qed.

Lemma api_key_only_changed_by_typing_witness :
  apiKey (run [TopKInput "abc"; CancelClick; SaveClick; ApiKeyVisibilityClick;
               ResetDefaultsClick; ToastTimer] initial)
  = apiKey initial.
Proof.
  apply (api_key_only_changed_by_typing
           [TopKInput "abc"; CancelClick; SaveClick; ApiKeyVisibilityClick;
            ResetDefaultsClick; ToastTimer] initial).
  reflexivity.
Defined.

Lemma plus_1 (z : Z) :
  1 <= z < 9007199254740992 -> JS.plus (JS.Int z) (JS.Int 1) = JS.Int (z + 1).
Proof.
  intros Hz. cbn [JS.plus]. apply of_Z_exact.
  change (2 ^ 53) with 9007199254740992. lia.
Qed.

Lemma minus_1 (z : Z) :
  1 <= z <= 9007199254740992 -> JS.minus (JS.Int z) (JS.Int 1) = JS.Int (z - 1).
Proof.
  intros Hz. unfold JS.minus.
  change (JS.negate (JS.Int 1)) with (JS.Int (-1)). cbn [JS.plus].
  apply of_Z_exact. change (2 ^ 53) with 9007199254740992. lia.
Qed.

(** At 2^53 the doubles are two apart: "+" leaves Top-K where it is and
    "-" then takes 1 off. *)
Example plus_minus_at_2_53 :
  topK (run [TopKInput "9007199254740992"; TopKIncrementClick; TopKDecrementClick]
            initial)
  = JS.Int 9007199254740991.
Proof. vm_compute. reflexivity. Qed.

(** X3. In every state the page can reach with Top-K below 2^53, one click
    on "+" followed by one click on "-" gives the state back; one click on
    "-" followed by one on "+" gives it back unless Top-K is 1, where it
    ends at 2. *)
Theorem topK_plus_minus_round_trip (events : list Event) (z : Z) :
  topK (run events initial) = JS.Int z ->
  z < 2 ^ 53 ->
  run [TopKIncrementClick; TopKDecrementClick] (run events initial)
  = run events initial /\
  (z <> 1 ->
   run [TopKDecrementClick; TopKIncrementClick] (run events initial)
   = run events initial) /\
  (z = 1 ->
   topK (run [TopKDecrementClick; TopKIncrementClick] (run events initial))
   = JS.Int 2).
Proof.
  intros Htop Hlt. change (2 ^ 53) with 9007199254740992 in Hlt.
  assert (Hinit : topK_at_least_1 initial) by reflexivity.
  pose proof (run_keeps_topK events initial Hinit) as Hge.
  unfold topK_at_least_1 in Hge. rewrite Htop in Hge.
  apply ge_1_cases in Hge as [(z' & [= <-] & Hz) | [=]].
  destruct (run events initial) as [key vis size tk temp toast]. simpl in Htop.
  subst tk. unfold run. cbn [fold_left handle]. unfold setTopK.
  cbn [topK apiKey isApiKeyVisible chunkSize temperature showToast].
  rewrite (plus_1 z), (minus_1 (z + 1)), (minus_1 z), max_Int, max_Int, plus_1
    by lia.
  split; [| split].
  - do 2 f_equal. lia.
  - intros Hne. do 2 f_equal. lia.
  - intros ->. reflexivity.
Qed.

Lemma topK_plus_minus_round_trip_witness :
  run [TopKIncrementClick; TopKDecrementClick] (run [TopKInput "7"] initial)
  = run [TopKInput "7"] initial /\
  (7 <> 1 ->
   run [TopKDecrementClick; TopKIncrementClick] (run [TopKInput "7"] initial)
   = run [TopKInput "7"] initial) /\
  (7 = 1 ->
   topK (run [TopKDecrementClick; TopKIncrementClick] (run [TopKInput "7"] initial))
   = JS.Int 2).
Proof.
  apply (topK_plus_minus_round_trip [TopKInput "7"] 7);
    vm_compute; reflexivity.
Defined.

End SettingsFacts.

(** ** The authentication context *)

Module Auth.

(** The object [setUser] stores. *)
Record User : Type := mkUser {
  name : string;
  plan : string
}.

Definition student : User := mkUser "Student Account" "Pro Plan".

(** The two [useState] cells of [AuthProvider] and the browser's
    [localStorage]. *)
Record AuthState : Type := mkAuthState {
  isAuthenticated : bool;
  user : option User;
  localStorage : gmap string string
}.

Definition auth_key : string := "classmind_auth".

(** The body of the [useEffect] that depends on [isAuthenticated]. *)
Definition effect (s : AuthState) : AuthState :=
  if isAuthenticated s
  then mkAuthState (isAuthenticated s) (Some student)
         (<[auth_key := "true"]> (localStorage s))
  else mkAuthState (isAuthenticated s) None
         (delete auth_key (localStorage s)).

(** Mounting the provider over a given storage: the lazy initialiser of
    [isAuthenticated] ([getItem(...) === 'true'], [getItem] giving null for
    an absent key), [user] null, then the effect after the first render. *)
Definition mount (storage : gmap string string) : AuthState :=
  effect (mkAuthState (bool_decide (storage !! auth_key = Some "true")) None storage).

(** [setIsAuthenticated(v)]: setting the value the cell already holds
    renders nothing and runs no effect; a new value renders and runs the
    effect. *)
Definition setIsAuthenticated (v : bool) (s : AuthState) : AuthState :=
  if Bool.eqb v (isAuthenticated s) then s
  else effect (mkAuthState v (user s) (localStorage s)).

Definition login (s : AuthState) : AuthState := setIsAuthenticated true s.
Definition logout (s : AuthState) : AuthState := setIsAuthenticated false s.

Inductive AuthEvent : Type :=
| Login
| Logout.

Definition auth_handle (e : AuthEvent) (s : AuthState) : AuthState :=
  match e with
  | Login => login s
  | Logout => logout s
  end.

Definition auth_run (events : list AuthEvent) (s : AuthState) : AuthState :=
  fold_left (fun acc e => auth_handle e acc) events s.

(** The stored flag and the user object agree with [isAuthenticated]. *)
Definition settled (s : AuthState) : Prop :=
  if isAuthenticated s
  then localStorage s !! auth_key = Some "true" /\ user s = Some student
  else localStorage s !! auth_key = None /\ user s = None.

Lemma effect_settled (s : AuthState) : settled (effect s).
Proof.
  unfold settled, effect. destruct (isAuthenticated s) eqn:Ha; simpl; rewrite ?Ha.
  - split; [apply lookup_insert_eq | reflexivity].
  - split; [apply lookup_delete_eq | reflexivity].
Qed.

Lemma auth_handle_settled (e : AuthEvent) (s : AuthState) :
  settled s -> settled (auth_handle e s).
Proof.
  intros Hs. destruct e; simpl; unfold login, logout, setIsAuthenticated;
    match goal with |- context [Bool.eqb ?a ?b] => destruct (Bool.eqb a b) end;
    try exact Hs; apply effect_settled.
Qed.

Lemma auth_run_settled (events : list AuthEvent) (s : AuthState) :
  settled s -> settled (auth_run events s).
Proof.
  revert s. induction events as [| e events IH]; intros s Hs; simpl.
  - exact Hs.
  - apply IH. now apply auth_handle_settled.
Qed.

Lemma effect_other_keys (s : AuthState) (key : string) :
  key <> auth_key -> localStorage (effect s) !! key = localStorage s !! key.
Proof.
  intros Hne. unfold effect. destruct (isAuthenticated s); simpl.
  - now rewrite lookup_insert_ne.
  - now rewrite lookup_delete_ne.
Qed.

Lemma auth_handle_other_keys (e : AuthEvent) (s : AuthState) (key : string) :
  key <> auth_key -> localStorage (auth_handle e s) !! key = localStorage s !! key.
Proof.
  intros Hne. destruct e; simpl; unfold login, logout, setIsAuthenticated;
    match goal with |- context [Bool.eqb ?a ?b] => destruct (Bool.eqb a b) end;
    try reflexivity; now rewrite effect_other_keys.
Qed.

(** X4. Once the provider is mounted, and after any sequence of logins and
    logouts, the stored flag and the user object agree with the login
    state: logged in means the flag is stored as "true" and the user is the
    student account; logged out means the flag is absent from the storage
    (whatever value it had before mounting) and the user is null. *)
Theorem auth_flag_and_user_follow_login_state
  (storage : gmap string string) (events : list AuthEvent) :
  settled (auth_run events (mount storage)).
Proof.
  apply auth_run_settled. apply effect_settled.
Qed.

(** X5. A page reload keeps the login state: mounting the provider again
    over the storage the session left gives the very state the session was
    in. *)
Theorem reload_restores_session
  (storage : gmap string string) (events : list AuthEvent) :
  mount (localStorage (auth_run events (mount storage)))
  = auth_run events (mount storage).
Proof.
  pose proof (auth_run_settled events (mount storage) (effect_settled _)) as Hs.
  destruct (auth_run events (mount storage)) as [a u ls].
  unfold settled in Hs. simpl in Hs. unfold mount. simpl.
  destruct a; destruct Hs as [Hkey ->].
  - rewrite bool_decide_eq_true_2 by exact Hkey.
    unfold effect. simpl. f_equal. now apply insert_id.
  - rewrite bool_decide_eq_false_2 by (rewrite Hkey; discriminate).
    unfold effect. simpl. f_equal. now apply delete_id.
Qed.

(** X6. The provider touches one storage key only: every other key of
    [localStorage] holds after mounting and any logins and logouts what it
    held before. *)
Theorem auth_leaves_other_keys
  (storage : gmap string string) (events : list AuthEvent) (key : string) :
  key <> auth_key ->
  localStorage (auth_run events (mount storage)) !! key = storage !! key.
Proof.
  intros Hne.
  assert (Hrun : forall s, localStorage (auth_run events s) !! key
                           = localStorage s !! key).
  { induction events as [| e events IH]; intros s; simpl; [reflexivity |].
    rewrite IH. now apply auth_handle_other_keys. }
  rewrite Hrun. unfold mount. now rewrite effect_other_keys.
Qed.

Lemma auth_leaves_other_keys_witness :
  localStorage (auth_run [Login; Logout; Login]
                  (mount (<["theme" := "dark"]> (<["classmind_auth" := "yes"]> ∅))))
    !! "theme"
  = (<["theme" := "dark"]> (<["classmind_auth" := "yes"]> ∅) : gmap string string)
      !! "theme".
Proof.
  apply (auth_leaves_other_keys
           (<["theme" := "dark"]> (<["classmind_auth" := "yes"]> ∅))
           [Login; Logout; Login] "theme").
  discriminate.
Defined.

End Auth.

(** ** The sidebar *)

Module Navigation.

(** An entry of [navItems]. *)
Record NavItem : Type := mkNavItem {
  path : string;
  icon : string;
  label : string;
  exact : bool
}.

Definition navItems : list NavItem :=
  [ mkNavItem "/dashboard" "dashboard" "Dashboard" true;
    mkNavItem "/dashboard/subjects" "school" "Classrooms" false;
    mkNavItem "/dashboard/chat-history" "chat" "Chat" false;
    mkNavItem "/dashboard/api-settings" "settings" "Settings" false ].

(** [isActive(path, exact)] at location [pathname]: [===] or
    [startsWith]. *)
Definition isActive (pathname : string) (p : string) (ex : bool) : bool :=
  if ex then String.eqb pathname p else String.prefix p pathname.

(** The items drawn as active at [pathname]. *)
Definition active_items (pathname : string) : list NavItem :=
  List.filter (fun item => isActive pathname (path item) (exact item)) navItems.

(** Two prefixes of one string: one is a prefix of the other. *)
Lemma prefixes_comparable (a b s : string) :
  String.prefix a s = true -> String.prefix b s = true ->
  String.prefix a b = true \/ String.prefix b a = true.
Proof.
  revert b s. induction a as [| ca a IH]; intros b s Ha Hb;
    [left; destruct b; reflexivity |].
  destruct b as [| cb b]; [now right |].
  destruct s as [| cs s]; simpl in *; [discriminate |].
  destruct (ascii_dec ca cs) as [-> | ]; [| discriminate].
  destruct (ascii_dec cb cs) as [-> | ]; [| discriminate].
  destruct (ascii_dec cs cs) as [_ | Hne]; [| now contradiction Hne].
  exact (IH b s Ha Hb).
Qed.

(** X7. Whatever the location, the sidebar marks at most one entry as
    active: "Dashboard" only at exactly /dashboard, and the three other
    entries on the paths that start with theirs, no path starting with two
    of them. *)
Theorem at_most_one_nav_item_active (pathname : string) :
  (length (active_items pathname) <= 1)%nat.
Proof.
  unfold active_items, navItems, isActive. cbn [List.filter path exact].
  destruct (String.eqb pathname "/dashboard") eqn:E0.
  - apply String.eqb_eq in E0. subst pathname. vm_compute. lia.
  - destruct (String.prefix "/dashboard/subjects" pathname) eqn:E1;
      destruct (String.prefix "/dashboard/chat-history" pathname) eqn:E2;
      destruct (String.prefix "/dashboard/api-settings" pathname) eqn:E3;
      simpl; try lia; exfalso;
      match goal with
      | Ha : String.prefix ?a pathname = true,
        Hb : String.prefix ?b pathname = true |- _ =>
          destruct (prefixes_comparable a b pathname Ha Hb) as [Hc | Hc];
          vm_compute in Hc; discriminate Hc
      end.
Qed.

End Navigation.

(** ** Multimodal processing *)

Module Processing.

(** An image or a video frame, as bytes. *)
Definition Image : Type := string.

(** The line feed of the Python string literals. *)
Definition LF : string := String (ascii_of_nat 10) "".

(** [sep.join(parts)] *)
Fixpoint join (sep : string) (parts : list string) : string :=
  match parts with
  | [] => ""
  | [x] => x
  | x :: rest => String.append x (String.append sep (join sep rest))
  end.

Definition pdf_prompt : string := "Describe this educational diagram/chart/equation".
Definition frame_prompt : string := "Describe what's on screen (slides, diagrams, code)".

(** The text put between a page's own text and the explanations of its
    images. *)
Definition visuals_marker : string :=
  String.append LF (String.append LF (String.append "[VISUALS]" LF)).

(** A segment of the transcript, a key frame, and the analysis of a
    frame; times are seconds. *)
Record AudioSegment : Type := mkAudioSegment {
  seg_start : Q;
  seg_end : Q;
  seg_text : string
}.

Record Frame : Type := mkFrame {
  frame_image : Image;
  frame_timestamp : Q
}.

Record FrameAnalysis : Type := mkFrameAnalysis {
  fa_timestamp : Q;
  fa_content : string
}.

(** [audio_seg.start <= f["timestamp"] <= audio_seg.end] *)
Definition in_segment (seg : AudioSegment) (f : FrameAnalysis) : bool :=
  Qle_bool (seg_start seg) (fa_timestamp f) && Qle_bool (fa_timestamp f) (seg_end seg).

(** The same test on a key frame. *)
Definition frame_in_segment (seg : AudioSegment) (f : Frame) : bool :=
  Qle_bool (seg_start seg) (frame_timestamp f) && Qle_bool (frame_timestamp f) (seg_end seg).

Section Processors.

Variable pdf_loader_load : string -> result (list Document).
Variable extract_images_from_page : string -> Z -> result (list Image).
Variable groq_vision_llm : Image -> string -> result string.
Variable extract_audio : string -> result string.
Variable groq_whisper : string -> result (list AudioSegment).
Variable extract_key_frames : string -> string -> result (list Frame).

(** The inner loop of [process_pdf]: one explanation per image, the first
    failure aborting. *)
Fixpoint explain_images (images : list Image) : result (list string) :=
  match images with
  | [] => Ok []
  | img :: rest =>
      let* explanation := groq_vision_llm img pdf_prompt in
      let* others := explain_images rest in
      Ok (explanation :: others)
  end.

(** The body of the [for page_num, page in enumerate(pages)] loop. *)
Definition process_page (file_path : string) (page_num : Z) (page : Document)
  : result Document :=
  let* images := extract_images_from_page file_path page_num in
  let* visual_explanations := explain_images images in
  let merged := String.append (page_content page)
                  (String.append visuals_marker (join LF visual_explanations)) in
  Ok (mkDocument merged
        (<["contains_visual" := MBool (0 <? len images)]>
           (<["page_number" := MInt (page_num + 1)]> (metadata page)))).

Fixpoint process_pages (file_path : string) (page_num : Z) (pages : list Document)
  (enriched : list Document) : result (list Document) :=
  match pages with
  | [] => Ok enriched
  | page :: rest =>
      let* doc := process_page file_path page_num page in
      process_pages file_path (page_num + 1) rest (enriched ++ [doc])
  end.

Definition process_pdf (file_path : string) : result (list Document) :=
  let* pages := pdf_loader_load file_path in
  process_pages file_path 0 pages [].

(** Step 4 of [process_video]: one analysis per key frame. *)
Fixpoint analyse_frames (frames : list Frame) : result (list FrameAnalysis) :=
  match frames with
  | [] => Ok []
  | frame :: rest =>
      let* analysis := groq_vision_llm (frame_image frame) frame_prompt in
      let* others := analyse_frames rest in
      Ok (mkFrameAnalysis (frame_timestamp frame) analysis :: others)
  end.

(** Step 5 for one audio segment. *)
Definition merge_segment (frame_analyses : list FrameAnalysis) (audio_seg : AudioSegment)
  : Document :=
  let relevant_visuals := List.filter (in_segment audio_seg) frame_analyses in
  let merged := String.append "[AUDIO] " (String.append (seg_text audio_seg) LF) in
  let merged' :=
    match relevant_visuals with
    | [] => merged
    | _ :: _ =>
        String.append merged
          (String.append LF (String.append "[VISUAL]" (String.append LF
             (join LF (map fa_content relevant_visuals)))))
    end in
  mkDocument merged'
    (<["contains_visual" := MBool (0 <? len relevant_visuals)]>
       (<["end_time" := MFloat (seg_end audio_seg)]>
          (<["start_time" := MFloat (seg_start audio_seg)]> ∅))).

Definition process_video (file_path : string) : result (list Document) :=
  let* audio_path := extract_audio file_path in
  let* transcript := groq_whisper audio_path in
  let* frames := extract_key_frames file_path "scene_change" in
  let* frame_analyses := analyse_frames frames in
  Ok (map (merge_segment frame_analyses) transcript).

End Processors.

Lemma filter_nonempty_existsb {A : Type} (p : A -> bool) (l : list A) :
  (0 <? len (List.filter p l)) = existsb p l.
Proof.
  induction l as [| x l IH]; simpl; [reflexivity |].
  destruct (p x); simpl; [| exact IH].
  unfold len. simpl. apply Z.ltb_lt. lia.
Qed.

Lemma filter_nil_existsb {A : Type} (p : A -> bool) (l : list A) :
  existsb p l = false -> List.filter p l = [].
Proof.
  induction l as [| x l IH]; simpl; [reflexivity |].
  destruct (p x); simpl; [discriminate | exact IH].
Qed.

Section ProcessorFacts.

Variable pdf_loader_load : string -> result (list Document).
Variable extract_images_from_page : string -> Z -> result (list Image).
Variable groq_vision_llm : Image -> string -> result string.
Variable extract_audio : string -> result string.
Variable groq_whisper : string -> result (list AudioSegment).
Variable extract_key_frames : string -> string -> result (list Frame).

Lemma explain_images_ok (images : list Image) (explanations : list string) :
  explain_images groq_vision_llm images = Ok explanations ->
  Forall2 (fun img e => groq_vision_llm img pdf_prompt = Ok e) images explanations.
Proof.
  revert explanations. induction images as [| img images IH]; intros es Hrun;
    simpl in Hrun.
  - injection Hrun as <-. constructor.
  - destruct (groq_vision_llm img pdf_prompt) as [e |] eqn:He; simpl in Hrun;
      [| discriminate].
    destruct (explain_images groq_vision_llm images) as [es' |]; simpl in Hrun;
      [| discriminate].
    injection Hrun as <-. constructor; [exact He | now apply IH].
Qed.

Lemma process_pages_ok (file_path : string) (pages : list Document) :
  forall (page_num : Z) (enriched docs : list Document),
    process_pages extract_images_from_page groq_vision_llm
                  file_path page_num pages enriched = Ok docs ->
    exists new,
      docs = enriched ++ new /\ length new = length pages /\
      forall (i : nat) page,
        pages !! i = Some page ->
        exists doc, new !! i = Some doc /\
          process_page extract_images_from_page groq_vision_llm
                       file_path (page_num + Z.of_nat i) page = Ok doc.
Proof.
  induction pages as [| page pages IH]; intros page_num enriched docs Hrun;
    simpl in Hrun.
  - injection Hrun as <-. exists []. rewrite app_nil_r.
    repeat split. intros i page Hi. discriminate Hi.
  - destruct (process_page extract_images_from_page groq_vision_llm
                file_path page_num page) as [doc |] eqn:Hdoc; simpl in Hrun;
      [| discriminate].
    destruct (IH _ _ _ Hrun) as (new & -> & Hlen & Hall).
    exists (doc :: new). rewrite <- app_assoc. simpl.
    split; [reflexivity |]. split; [now f_equal |].
    intros [| i] pg Hi; simpl in Hi.
    + injection Hi as <-. exists doc. split; [reflexivity |].
      now replace (page_num + Z.of_nat 0) with page_num by lia.
    + destruct (Hall i pg Hi) as (d & Hd & Hp). exists d. split; [exact Hd |].
      now replace (page_num + Z.of_nat (S i)) with (page_num + 1 + Z.of_nat i) by lia.
Qed.

Lemma process_pdf_pages (file_path : string) (pages docs : list Document) :
  pdf_loader_load file_path = Ok pages ->
  process_pdf pdf_loader_load extract_images_from_page groq_vision_llm file_path
  = Ok docs ->
  length docs = length pages /\
  forall (i : nat) page,
    pages !! i = Some page ->
    exists doc, docs !! i = Some doc /\
      process_page extract_images_from_page groq_vision_llm
                   file_path (Z.of_nat i) page = Ok doc.
Proof.
  intros Hload Hrun. unfold process_pdf in Hrun. rewrite Hload in Hrun.
  simpl in Hrun.
  destruct (process_pages_ok _ _ _ _ _ Hrun) as (new & -> & Hlen & Hall).
  simpl. split; [exact Hlen |]. exact Hall.
Qed.

Lemma process_page_ok (file_path : string) (page_num : Z) (page doc : Document) :
  process_page extract_images_from_page groq_vision_llm file_path page_num page
  = Ok doc ->
  exists images explanations,
    extract_images_from_page file_path page_num = Ok images /\
    Forall2 (fun img e => groq_vision_llm img pdf_prompt = Ok e) images explanations /\
    page_content doc
    = String.append (page_content page)
        (String.append visuals_marker (join LF explanations)) /\
    metadata doc !! "page_number" = Some (MInt (page_num + 1)) /\
    metadata doc !! "contains_visual" = Some (MBool (negb (Nat.eqb (length images) 0))) /\
    forall key, key <> "page_number" -> key <> "contains_visual" ->
                metadata doc !! key = metadata page !! key.
Proof.
  intros Hpage. unfold process_page in Hpage.
  destruct (extract_images_from_page file_path page_num) as [images |] eqn:Himg;
    simpl in Hpage; [| discriminate].
  destruct (explain_images groq_vision_llm images) as [es |] eqn:Hes;
    simpl in Hpage; [| discriminate].
  injection Hpage as <-.
  exists images, es. split; [reflexivity |].
  split; [now apply explain_images_ok |]. split; [reflexivity |]. simpl.
  split; [| split].
  - rewrite lookup_insert_ne by discriminate. apply lookup_insert_eq.
  - rewrite lookup_insert_eq. do 2 f_equal. unfold len.
    destruct images; reflexivity.
  - intros key H1 H2. rewrite lookup_insert_ne by congruence.
    now rewrite lookup_insert_ne by congruence.
Qed.

(** X8. When [process_pdf] returns, it returns one document per loaded
    page, in page order.  The document of the page at index [i] has page
    number [i + 1]; its flag [contains_visual] tells whether the page has
    an image; its text is the page's text, then the [VISUALS] marker (also
    for a page with no image), then one explanation per image, each the
    vision model's answer, joined by line feeds; every other metadata key
    of the page is kept. *)
Theorem process_pdf_one_document_per_page
  (file_path : string) (pages docs : list Document) :
  pdf_loader_load file_path = Ok pages ->
  process_pdf pdf_loader_load extract_images_from_page groq_vision_llm file_path
  = Ok docs ->
  length docs = length pages /\
  forall (i : nat) page,
    pages !! i = Some page ->
    exists doc images explanations,
      docs !! i = Some doc /\
      extract_images_from_page file_path (Z.of_nat i) = Ok images /\
      Forall2 (fun img e => groq_vision_llm img pdf_prompt = Ok e) images explanations /\
      page_content doc
      = String.append (page_content page)
          (String.append visuals_marker (join LF explanations)) /\
      metadata doc !! "page_number" = Some (MInt (Z.of_nat i + 1)) /\
      metadata doc !! "contains_visual" = Some (MBool (negb (Nat.eqb (length images) 0))) /\
      forall key, key <> "page_number" -> key <> "contains_visual" ->
                  metadata doc !! key = metadata page !! key.
Proof.
  intros Hload Hrun.
  destruct (process_pdf_pages file_path pages docs Hload Hrun) as [Hlen Hall].
  split; [exact Hlen |].
  intros i page Hi. destruct (Hall i page Hi) as (doc & Hdoc & Hpage).
  destruct (process_page_ok _ _ _ _ Hpage) as (images & es & Hrest).
  exists doc, images, es. split; [exact Hdoc | exact Hrest].
Qed.

(** X9. [process_pdf] has no text-only fallback: when the vision model
    fails on one image of one page, the whole call raises and no document
    is returned, whatever the other pages are. *)
Theorem process_pdf_fails_when_one_image_fails
  (file_path : string) (pages : list Document) (i : nat) (page : Document)
  (images : list Image) (img : Image) (e : exception) :
  pdf_loader_load file_path = Ok pages ->
  pages !! i = Some page ->
  extract_images_from_page file_path (Z.of_nat i) = Ok images ->
  img ∈ images ->
  groq_vision_llm img pdf_prompt = Raise e ->
  exists e', process_pdf pdf_loader_load extract_images_from_page groq_vision_llm
               file_path = Raise e'.
Proof.
  intros Hload Hi Himg Hin Hfail.
  destruct (process_pdf pdf_loader_load extract_images_from_page groq_vision_llm
              file_path) as [docs | e'] eqn:Hrun; [| now exists e'].
  exfalso.
  destruct (process_pdf_pages file_path pages docs Hload Hrun) as [_ Hall].
  destruct (Hall i page Hi) as (doc & _ & Hpage).
  destruct (process_page_ok _ _ _ _ Hpage) as (images' & es & Himg' & Hok & _).
  rewrite Himg in Himg'. injection Himg' as <-.
  apply list_elem_of_lookup in Hin as [k Hk].
  destruct (Forall2_lookup_l _ _ _ _ _ Hok Hk) as (x & _ & Hx).
  rewrite Hfail in Hx. discriminate Hx.
Qed.

Lemma analyse_frames_ok (frames : list Frame) (analyses : list FrameAnalysis) :
  analyse_frames groq_vision_llm frames = Ok analyses ->
  Forall2 (fun f a => groq_vision_llm (frame_image f) frame_prompt = Ok (fa_content a) /\
                      fa_timestamp a = frame_timestamp f) frames analyses.
Proof.
  revert analyses. induction frames as [| f frames IH]; intros analyses Hrun;
    simpl in Hrun.
  - injection Hrun as <-. constructor.
  - destruct (groq_vision_llm (frame_image f) frame_prompt) as [a |] eqn:Ha;
      simpl in Hrun; [| discriminate].
    destruct (analyse_frames groq_vision_llm frames) as [others |]; simpl in Hrun;
      [| discriminate].
    injection Hrun as <-. constructor; [split; [exact Ha | reflexivity] | now apply IH].
Qed.

Lemma analyse_frames_total (frames : list Frame) :
  Forall (fun f => exists a, groq_vision_llm (frame_image f) frame_prompt = Ok a) frames ->
  exists analyses, analyse_frames groq_vision_llm frames = Ok analyses.
Proof.
  induction 1 as [| f frames [a Ha] _ [others Hothers]]; simpl.
  - now exists [].
  - rewrite Ha. simpl. rewrite Hothers. simpl. eauto.
Qed.

Lemma existsb_in_segment (seg : AudioSegment) (frames : list Frame)
  (analyses : list FrameAnalysis) :
  Forall2 (fun f a => groq_vision_llm (frame_image f) frame_prompt = Ok (fa_content a) /\
                      fa_timestamp a = frame_timestamp f) frames analyses ->
  existsb (in_segment seg) analyses = existsb (frame_in_segment seg) frames.
Proof.
  induction 1 as [| f a frames analyses [_ Ht] _ IH]; simpl; [reflexivity |].
  rewrite IH. unfold in_segment, frame_in_segment. now rewrite Ht.
Qed.

Lemma merge_segment_facts (analyses : list FrameAnalysis) (seg : AudioSegment) :
  metadata (merge_segment analyses seg) !! "start_time" = Some (MFloat (seg_start seg)) /\
  metadata (merge_segment analyses seg) !! "end_time" = Some (MFloat (seg_end seg)) /\
  metadata (merge_segment analyses seg) !! "contains_visual"
  = Some (MBool (existsb (in_segment seg) analyses)) /\
  (forall key, key <> "start_time" -> key <> "end_time" -> key <> "contains_visual" ->
               metadata (merge_segment analyses seg) !! key = None) /\
  (existsb (in_segment seg) analyses = false ->
   page_content (merge_segment analyses seg)
   = String.append "[AUDIO] " (String.append (seg_text seg) LF)).
Proof.
  unfold merge_segment. cbv zeta. cbn [metadata page_content].
  split; [| split; [| split; [| split]]].
  - rewrite lookup_insert_ne by discriminate.
    rewrite lookup_insert_ne by discriminate. apply lookup_insert_eq.
  - rewrite lookup_insert_ne by discriminate. apply lookup_insert_eq.
  - rewrite lookup_insert_eq. now rewrite filter_nonempty_existsb.
  - intros key H1 H2 H3. rewrite !lookup_insert_ne by congruence.
    apply lookup_empty.
  - intros Hnone. now rewrite (filter_nil_existsb _ _ Hnone).
Qed.

(** X10. When the audio is extracted and transcribed, the key frames are
    extracted and the vision model answers on each of them, [process_video]
    returns one document per transcript segment, in order.  The document of
    a segment carries its start and end time and no other metadata than
    those and [contains_visual] (no file name, no page number);
    [contains_visual] is true exactly when a key frame's timestamp lies in
    the closed interval from start to end; with no such frame the text is
    the [AUDIO] tag, the transcribed text and a line feed. *)
Theorem process_video_one_document_per_segment
  (file_path audio_path : string) (transcript : list AudioSegment)
  (frames : list Frame) :
  extract_audio file_path = Ok audio_path ->
  groq_whisper audio_path = Ok transcript ->
  extract_key_frames file_path "scene_change" = Ok frames ->
  Forall (fun f => exists a, groq_vision_llm (frame_image f) frame_prompt = Ok a) frames ->
  exists docs,
    process_video groq_vision_llm extract_audio groq_whisper extract_key_frames
                  file_path = Ok docs /\
    length docs = length transcript /\
    forall (i : nat) seg,
      transcript !! i = Some seg ->
      exists doc,
        docs !! i = Some doc /\
        metadata doc !! "start_time" = Some (MFloat (seg_start seg)) /\
        metadata doc !! "end_time" = Some (MFloat (seg_end seg)) /\
        metadata doc !! "contains_visual"
        = Some (MBool (existsb (frame_in_segment seg) frames)) /\
        (forall key, key <> "start_time" -> key <> "end_time" ->
                     key <> "contains_visual" -> metadata doc !! key = None) /\
        (existsb (frame_in_segment seg) frames = false ->
         page_content doc = String.append "[AUDIO] " (String.append (seg_text seg) LF)).
Proof.
  intros Haudio Hwhisper Hframes Hvision.
  destruct (analyse_frames_total frames Hvision) as [analyses Han].
  exists (map (merge_segment analyses) transcript).
  unfold process_video. rewrite Haudio. simpl. rewrite Hwhisper. simpl.
  rewrite Hframes. simpl. rewrite Han. simpl.
  split; [reflexivity |]. split; [apply length_map |].
  intros i seg Hi. exists (merge_segment analyses seg).
  split; [now rewrite list_lookup_fmap, Hi |].
  rewrite <- (existsb_in_segment seg frames analyses (analyse_frames_ok _ _ Han)).
  apply merge_segment_facts.
Qed.

(** X11. [process_video] returns nothing when the vision model fails on one
    key frame: the call raises, and with it the transcript of the whole
    video is lost. *)
Theorem process_video_fails_when_one_frame_fails
  (file_path audio_path : string) (transcript : list AudioSegment)
  (frames : list Frame) (f : Frame) (e : exception) :
  extract_audio file_path = Ok audio_path ->
  groq_whisper audio_path = Ok transcript ->
  extract_key_frames file_path "scene_change" = Ok frames ->
  f ∈ frames ->
  groq_vision_llm (frame_image f) frame_prompt = Raise e ->
  exists e', process_video groq_vision_llm extract_audio groq_whisper
               extract_key_frames file_path = Raise e'.
Proof.
  intros Haudio Hwhisper Hframes Hin Hfail.
  unfold process_video. rewrite Haudio. simpl. rewrite Hwhisper. simpl.
  rewrite Hframes. simpl.
  destruct (analyse_frames groq_vision_llm frames) as [analyses | e'] eqn:Han;
    simpl; [| now exists e'].
  exfalso. apply list_elem_of_lookup in Hin as [k Hk].
  destruct (Forall2_lookup_l _ _ _ _ _ (analyse_frames_ok _ _ Han) Hk)
    as (a & _ & Ha & _).
  rewrite Hfail in Ha. discriminate Ha.
Qed.

End ProcessorFacts.

(** Concrete externals: a two-page file with one figure on the first page,
    a one-minute video with two transcript segments and two key frames, and
    a vision model that fails on one image. *)
Definition demo_pages : list Document :=
  [mkDocument "See Figure 1 for backprop." ∅; mkDocument "Summary." ∅].

Definition demo_pdf_loader (file_path : string) : result (list Document) :=
  Ok demo_pages.

Definition demo_extract_images (image : Image) (file_path : string) (page_num : Z)
  : result (list Image) :=
  if page_num =? 0 then Ok [image] else Ok [].

Definition demo_vision (img : Image) (prompt : string) : result string :=
  if String.eqb img "broken.png" then Raise (External "ModelUnavailable")
  else Ok "Diagram shows a neural network.".

Definition demo_extract_audio (file_path : string) : result string := Ok "audio.mp3".

Definition demo_transcript : list AudioSegment :=
  [mkAudioSegment 0 30 "In this lecture"; mkAudioSegment 30 60 "we cover backprop."].

Definition demo_whisper (audio_path : string) : result (list AudioSegment) :=
  Ok demo_transcript.

Definition demo_frames (image : Image) : list Frame :=
  [mkFrame image 30; mkFrame "slide2.png" 75].

Definition demo_key_frames (image : Image) (file_path strategy : string)
  : result (list Frame) :=
  Ok (demo_frames image).

Definition ok_or_nil {A : Type} (r : result (list A)) : list A :=
  match r with
  | Ok l => l
  | Raise _ => []
  end.

Definition demo_pdf_docs : list Document :=
  ok_or_nil (process_pdf demo_pdf_loader (demo_extract_images "figure1.png")
               demo_vision "lecture.pdf").

(** A frame on the boundary of two segments counts for both, and a frame
    after the last segment for none. *)
Example boundary_frame_in_both_segments :
  (fun d => metadata d !! "contains_visual")
    <$> ok_or_nil (process_video demo_vision demo_extract_audio demo_whisper
                     (demo_key_frames "slide1.png") "week3_video.mp4")
  = [Some (MBool true); Some (MBool true)].
Proof. vm_compute. reflexivity. Qed.

Lemma process_pdf_one_document_per_page_witness :
  length demo_pdf_docs = length demo_pages /\
  forall (i : nat) page,
    demo_pages !! i = Some page ->
    exists doc images explanations,
      demo_pdf_docs !! i = Some doc /\
      demo_extract_images "figure1.png" "lecture.pdf" (Z.of_nat i) = Ok images /\
      Forall2 (fun img e => demo_vision img pdf_prompt = Ok e) images explanations /\
      page_content doc
      = String.append (page_content page)
          (String.append visuals_marker (join LF explanations)) /\
      metadata doc !! "page_number" = Some (MInt (Z.of_nat i + 1)) /\
      metadata doc !! "contains_visual" = Some (MBool (negb (Nat.eqb (length images) 0))) /\
      forall key, key <> "page_number" -> key <> "contains_visual" ->
                  metadata doc !! key = metadata page !! key.
Proof.
  apply (process_pdf_one_document_per_page
           demo_pdf_loader (demo_extract_images "figure1.png") demo_vision
           "lecture.pdf" demo_pages demo_pdf_docs).
  - reflexivity.
  - vm_compute. reflexivity.
Defined.

Lemma process_pdf_fails_when_one_image_fails_witness :
  exists e', process_pdf demo_pdf_loader (demo_extract_images "broken.png")
               demo_vision "lecture.pdf" = Raise e'.
Proof.
  apply (process_pdf_fails_when_one_image_fails
           demo_pdf_loader (demo_extract_images "broken.png") demo_vision
           "lecture.pdf" demo_pages 0%nat
           (mkDocument "See Figure 1 for backprop." ∅)
           ["broken.png"] "broken.png" (External "ModelUnavailable")).
  - reflexivity.
  - reflexivity.
  - reflexivity.
  - apply list_elem_of_singleton. reflexivity.
  - reflexivity.
Defined.

Lemma process_video_one_document_per_segment_witness :
  exists docs,
    process_video demo_vision demo_extract_audio demo_whisper
                  (demo_key_frames "slide1.png") "week3_video.mp4" = Ok docs /\
    length docs = length demo_transcript /\
    forall (i : nat) seg,
      demo_transcript !! i = Some seg ->
      exists doc,
        docs !! i = Some doc /\
        metadata doc !! "start_time" = Some (MFloat (seg_start seg)) /\
        metadata doc !! "end_time" = Some (MFloat (seg_end seg)) /\
        metadata doc !! "contains_visual"
        = Some (MBool (existsb (frame_in_segment seg) (demo_frames "slide1.png"))) /\
        (forall key, key <> "start_time" -> key <> "end_time" ->
                     key <> "contains_visual" -> metadata doc !! key = None) /\
        (existsb (frame_in_segment seg) (demo_frames "slide1.png") = false ->
         page_content doc = String.append "[AUDIO] " (String.append (seg_text seg) LF)).
Proof.
  apply (process_video_one_document_per_segment
           demo_vision demo_extract_audio demo_whisper (demo_key_frames "slide1.png")
           "week3_video.mp4" "audio.mp3" demo_transcript (demo_frames "slide1.png")).
  - reflexivity.
  - reflexivity.
  - reflexivity.
  - repeat constructor; eexists; reflexivity.
Defined.

Lemma process_video_fails_when_one_frame_fails_witness :
  exists e', process_video demo_vision demo_extract_audio demo_whisper
               (demo_key_frames "broken.png") "week3_video.mp4" = Raise e'.
Proof.
  apply (process_video_fails_when_one_frame_fails
           demo_vision demo_extract_audio demo_whisper (demo_key_frames "broken.png")
           "week3_video.mp4" "audio.mp3" demo_transcript (demo_frames "broken.png")
           (mkFrame "broken.png" 30) (External "ModelUnavailable")).
  - reflexivity.
  - reflexivity.
  - reflexivity.
  - left.
  - reflexivity.
Defined.

End Processing.

(** ** More on citation extraction *)

Module CitationFacts.

Import Citations.

Lemma getitem_in_range {A : Type} (l : list A) (i : Z) :
  0 <= i < len l -> exists x, getitem l i = Ok x /\ l !! Z.to_nat i = Some x.
Proof.
  intros [Hlo Hhi]. unfold getitem.
  destruct (i <? 0) eqn:Hneg; [apply Z.ltb_lt in Hneg; lia |].
  rewrite Hneg. simpl.
  destruct (len l <=? i) eqn:Hge; [apply Z.leb_le in Hge; lia |].
  destruct (l !! Z.to_nat i) as [x |] eqn:Hx; [eauto |].
  apply lookup_ge_None in Hx. unfold len in Hhi. lia.
Qed.

Lemma citation_of_number (n : Z) (d : Document) (c : Citation) :
  citation_of n d = Ok c -> number c = n.
Proof.
  unfold citation_of.
  destruct (dict_getitem (metadata d) "file_name"); simpl; [| discriminate].
  now intros [= <-].
Qed.

Lemma extract_loop_total (nums : list str) (docs : list Document) :
  (forall s, s ∈ nums -> exists n, int s = Ok n /\ 1 <= n) ->
  Forall (fun d => is_Some (metadata d !! "file_name")) docs ->
  forall acc, exists cs,
    extract_loop nums docs acc = Ok cs /\
    (forall c, c ∈ acc -> c ∈ cs) /\
    (forall s n, s ∈ nums -> int s = Ok n -> n <= len docs ->
                 exists c, c ∈ cs /\ number c = n).
Proof.
  intros Hpos Hnames. induction nums as [| n nums IH]; intros acc;
    cbn [extract_loop].
  - exists acc. repeat split; [auto |]. intros s k Hs. now apply elem_of_nil in Hs.
  - destruct (Hpos n) as (k & Hint & Hk); [left |].
    assert (Hpos' : forall s, s ∈ nums -> exists n, int s = Ok n /\ 1 <= n)
      by (intros; apply Hpos; now right).
    specialize (IH Hpos'). rewrite Hint. cbn [bind].
    destruct (k <=? len docs) eqn:Hle.
    + apply Z.leb_le in Hle.
      destruct (getitem_in_range docs (k - 1)) as (d & Hget & Hd); [lia |].
      rewrite Hget. cbn [bind].
      rewrite Forall_forall in Hnames.
      destruct (Hnames d) as [fname Hf];
        [apply list_elem_of_lookup; eauto |].
      unfold citation_of, dict_getitem. rewrite Hf. cbn [bind].
      match goal with
      | |- context [extract_loop nums docs (acc ++ [?c])] =>
          destruct (IH (acc ++ [c])) as (cs & Hrun & Hacc & Hall); set (cit := c) in *
      end.
      exists cs. split; [exact Hrun |]. split.
      * intros c Hc. apply Hacc, elem_of_app. now left.
      * intros s m Hs Hm Hsle.
        apply elem_of_cons in Hs as [-> | Hs]; [| now apply (Hall s)].
        rewrite Hint in Hm. injection Hm as <-.
        exists cit. split; [| reflexivity].
        apply Hacc, elem_of_app. right. now apply list_elem_of_singleton.
    + apply Z.leb_gt in Hle.
      destruct (IH acc) as (cs & Hrun & Hacc & Hall).
      exists cs. split; [exact Hrun |]. split; [exact Hacc |].
      intros s m Hs Hm Hsle.
      apply elem_of_cons in Hs as [-> | Hs]; [| now apply (Hall s)].
      rewrite Hint in Hm. injection Hm as <-. lia.
Qed.

Lemma extract_loop_missing_file_name (nums : list str) (docs : list Document)
  (s : str) (d : Document) :
  s ∈ nums ->
  digit_string s ->
  1 <= decimal_value s <= len docs ->
  docs !! Z.to_nat (decimal_value s - 1) = Some d ->
  metadata d !! "file_name" = None ->
  forall acc, exists e, extract_loop nums docs acc = Raise e.
Proof.
  intros Hin Hds Hrange Hd Hnone.
  induction nums as [| n nums IH]; intros acc; [now apply elem_of_nil in Hin |].
  cbn [extract_loop]. apply elem_of_cons in Hin as [<- | Hin].
  - rewrite (int_digit_string s Hds).
    destruct (int_max_str_digits <? len s); cbn [bind]; [eauto |].
    destruct (decimal_value s <=? len docs) eqn:Hle; [| apply Z.leb_gt in Hle; lia].
    destruct (getitem_in_range docs (decimal_value s - 1)) as (d' & Hget & Hd');
      [lia |].
    rewrite Hd in Hd'. injection Hd' as <-.
    rewrite Hget. cbn [bind]. unfold citation_of, dict_getitem. rewrite Hnone.
    cbn [bind]. eauto.
  - destruct (int n) as [k | e]; cbn [bind]; [| eauto].
    destruct (k <=? len docs); [| now apply IH].
    destruct (getitem docs (k - 1)) as [d' | e]; cbn [bind]; [| eauto].
    destruct (citation_of k d') as [c | e]; cbn [bind]; [| eauto].
    now apply IH.
Qed.

(** X12. When every bracketed ordinal of the text converts to an integer
    other than 0 (none has the value 0, none has more digits than [int]
    accepts) and every retrieved document has a file name,
    [extract_citations] returns, whatever the iteration order of the set,
    and the numbers of the citations it returns are exactly the ordinals of
    the text that lie between 1 and the number of retrieved documents. *)
Theorem extract_citations_numbers
  (order : set_order) (text : string) (docs : list Document) :
  cites_ordinal_zero text = false ->
  cites_oversized_ordinal text = false ->
  Forall (fun d => is_Some (metadata d !! "file_name")) docs ->
  exists cs,
    extract_citations order text docs = Ok cs /\
    forall n, (exists c, c ∈ cs /\ number c = n) <->
              (1 <= n <= len docs /\
               exists s, s ∈ findall_bracketed_digits text /\ int s = Ok n).
Proof.
  intros Hz Hbig Hnames. unfold extract_citations.
  assert (Hpos : forall s, s ∈ set_iter order (findall_bracketed_digits text) ->
                           exists n, int s = Ok n /\ 1 <= n).
  { intros s Hs. apply set_iter_elem in Hs. exists (decimal_value s).
    pose proof (no_oversized_ordinals_convert _ _ Hbig Hs) as Hint.
    split; [exact Hint |]. exact (no_zero_ordinals_positive _ _ _ Hz Hs Hint). }
  destruct (extract_loop_total _ docs Hpos Hnames []) as (cs & Hrun & _ & Hall).
  exists cs. split; [exact Hrun |]. intros n. split.
  - intros (c & Hc & <-).
    destruct (extract_citations_sound order text docs cs c Hz Hrun Hc)
      as (s & d & Hs & Hint & Hctx & _).
    split; [| eauto].
    unfold context_chunk in Hctx.
    destruct (1 <=? number c) eqn:H1; [| discriminate].
    apply Z.leb_le in H1. apply lookup_lt_Some in Hctx. unfold len. lia.
  - intros ([Hlo Hhi] & s & Hs & Hint).
    apply (Hall s); [| exact Hint | exact Hhi].
    now apply set_iter_elem.
Qed.

Lemma extract_citations_numbers_witness :
  exists cs,
    extract_citations first_occurrence "Loss goes down [1][2], see also [7]."
      [lecture_notes; week3_video]
    = Ok cs /\
    forall n, (exists c, c ∈ cs /\ number c = n) <->
              (1 <= n <= len [lecture_notes; week3_video] /\
               exists s, s ∈ findall_bracketed_digits "Loss goes down [1][2], see also [7]."
                         /\ int s = Ok n).
Proof.
  apply (extract_citations_numbers first_occurrence
           "Loss goes down [1][2], see also [7]." [lecture_notes; week3_video]).
  - vm_compute. reflexivity.
  - vm_compute. reflexivity.
  - repeat constructor; eexists; reflexivity.
Defined.

(** X13. A cited document without a ["file_name"] key makes
    [extract_citations] raise: when the text has an ordinal between 1 and
    the number of retrieved documents whose document has no file name, the
    call returns no citation list at all, whatever else the text cites and
    whatever the iteration order of the set. *)
Theorem extract_citations_needs_file_name
  (order : set_order) (text : string) (docs : list Document) (s : str)
  (d : Document) :
  s ∈ findall_bracketed_digits text ->
  1 <= decimal_value s <= len docs ->
  docs !! Z.to_nat (decimal_value s - 1) = Some d ->
  metadata d !! "file_name" = None ->
  exists e, extract_citations order text docs = Raise e.
Proof.
  intros Hs Hrange Hd Hnone. unfold extract_citations.
  apply (extract_loop_missing_file_name _ docs s d); try assumption.
  - now apply set_iter_elem.
  - exact (findall_digit_strings _ _ Hs).
Qed.

Lemma extract_citations_needs_file_name_witness :
  exists e,
    extract_citations first_occurrence "As the lecture says [1][2]."
      [lecture_notes;
       mkDocument "[AUDIO] In this lecture" (<["start_time" := MFloat 0]> ∅)]
    = Raise e.
Proof.
  apply (extract_citations_needs_file_name first_occurrence
           "As the lecture says [1][2]."
           [lecture_notes;
            mkDocument "[AUDIO] In this lecture" (<["start_time" := MFloat 0]> ∅)]
           [50]
           (mkDocument "[AUDIO] In this lecture" (<["start_time" := MFloat 0]> ∅))).
  - vm_compute. right. left.
  - vm_compute. split; discriminate.
  - reflexivity.
  - reflexivity.
Defined.

End CitationFacts.

(** ** Runs of the indexing workflow *)

Module WorkflowRuns.

Import VectorStore Workflow.

(** How many steps a job at a stage can still take. *)
Definition steps_left (s : Stage) : nat :=
  match s with
  | Pending => 6
  | Running download => 5
  | Running load => 4
  | Running enrich => 3
  | Running chunk => 2
  | Running embed => 1
  | Completed | Failed => 0
  end.

Section Runs.

Variable download_from_drive : string -> result string.
Variable pdf_loader_load : string -> result (list Document).
Variable enrich_with_vision : Document -> result Document.
Variable split_documents : Z -> Z -> list Document -> result (list Document).
Variable embedding_function : string -> result Vector.

Let step' := step download_from_drive pdf_loader_load enrich_with_vision
               split_documents embedding_function.
Let steps' := steps download_from_drive pdf_loader_load enrich_with_vision
                split_documents embedding_function.
Let reachable' := reachable download_from_drive pdf_loader_load enrich_with_vision
                    split_documents embedding_function.
Let enrich_all' := enrich_all enrich_with_vision.

Lemma reachable_invariant (P : World * Job -> Prop) (c0 : World * Job) :
  P c0 ->
  (forall c c', P c -> step' c = Some c' -> P c') ->
  forall c, reachable' c0 c -> P c.
Proof.
  intros Hinit Hstep c [n Hn]. revert c0 Hinit Hn.
  induction n as [| n IH]; intros c0 Hinit Hn; cbn [steps] in Hn.
  - now injection Hn as <-.
  - destruct (step download_from_drive pdf_loader_load enrich_with_vision
                split_documents embedding_function c0) as [c1 |] eqn:H1;
      [| discriminate].
    exact (IH c1 (Hstep c0 c1 Hinit H1) Hn).
Qed.

Lemma step_decreases (w w' : World) (j j' : Job) :
  step' (w, j) = Some (w', j') ->
  (steps_left (stage j') < steps_left (stage j))%nat.
Proof.
  subst step'. unfold step. intros Hstep.
  destruct (stage j) as [| n | |]; try discriminate.
  - injection Hstep as <- <-. simpl. lia.
  - destruct (node_function _ _ _ _ _ n w (state j)) as [[w1 st1] | e].
    + destruct n; vm_compute in Hstep; injection Hstep as <- <-; simpl; lia.
    + injection Hstep as <- <-. destruct n; simpl; lia.
Qed.

Lemma step_none_terminal (w : World) (j : Job) :
  terminal (stage j) = true -> step' (w, j) = None.
Proof.
  subst step'. unfold step. destruct (stage j); try discriminate; reflexivity.
Qed.

Lemma run_terminates (k : nat) :
  forall (w : World) (j : Job),
    (steps_left (stage j) <= k)%nat ->
    exists n w' j',
      (n <= k)%nat /\ steps' n (w, j) = Some (w', j') /\
      terminal (stage j') = true /\ step' (w', j') = None.
Proof.
  induction k as [| k IH]; intros w j Hk.
  - exists 0%nat, w, j. split; [lia |]. split; [reflexivity |].
    assert (Ht : terminal (stage j) = true)
      by (destruct (stage j) as [| [] | |]; simpl in Hk; try lia; reflexivity).
    split; [exact Ht | now apply step_none_terminal].
  - destruct (terminal (stage j)) eqn:Ht.
    + exists 0%nat, w, j. split; [lia |]. split; [reflexivity |].
      split; [exact Ht | now apply step_none_terminal].
    + destruct (step_defined download_from_drive pdf_loader_load enrich_with_vision
                  split_documents embedding_function w j Ht) as [[w1 j1] H1].
      pose proof (step_decreases w w1 j j1 H1) as Hdec.
      destruct (IH w1 j1) as (n & w' & j' & Hn & Hrun & Hterm & Hnone); [lia |].
      exists (S n), w', j'. split; [lia |]. split; [| split; assumption].
      subst steps'. cbn [steps]. now rewrite H1.
Qed.

(** X14. Every job ends: from any job, in any state of the stores, at most
    six steps lead to Completed or Failed, and a job there has no further
    step, whatever the external calls return. *)
Theorem every_run_ends (w : World) (j : Job) :
  exists n w' j',
    (n <= 6)%nat /\
    steps download_from_drive pdf_loader_load enrich_with_vision
          split_documents embedding_function n (w, j) = Some (w', j') /\
    terminal (stage j') = true /\
    step download_from_drive pdf_loader_load enrich_with_vision
         split_documents embedding_function (w', j') = None.
Proof.
  apply (run_terminates 6 w j). destruct (stage j) as [| [] | |]; simpl; lia.
Qed.

(** The run of one file under study. *)
(** What the job state says about a run on [input]. *)
Definition bookkeeping (input : IndexingState) (c : World * Job) : Prop :=
  file_id (state c.2) = file_id input /\
  user_id (state c.2) = user_id input /\
  file_type (state c.2) = file_type input /\
  error (state c.2) = error input /\
  status (state c.2) = match stage c.2 with
                       | Completed => "completed"
                       | _ => status input
                       end.

Lemma bookkeeping_step (input : IndexingState) (c c' : World * Job) :
  bookkeeping input c -> step' c = Some c' -> bookkeeping input c'.
Proof.
  destruct c as [w j], c' as [w' j']. unfold bookkeeping. cbn [snd].
  intros (Hfid & Huid & Hft & Herr & Hst) Hstep.
  subst step'. unfold step in Hstep.
  destruct (stage j) as [| n | |] eqn:Hs; try discriminate.
  - injection Hstep as <- <-. cbn [state stage]. auto.
  - destruct (node_function _ _ _ _ _ n w (state j)) as [[w1 st1] | e] eqn:Hnode;
      [| injection Hstep as <- <-; cbn [state stage]; auto].
    destruct n; vm_compute in Hstep; injection Hstep as <- <-;
      revert Hfid Huid Hft Herr Hst; run_node Hnode;
      intros Hfid Huid Hft Herr Hst;
      cbn [state stage file_id user_id file_type error status]; auto.
Qed.

(** X16. What the job state says about a run, whatever state the run was
    started on (the initial one, or the state an earlier call returned):
    the file id, the user id and the file type never change; the [error]
    key is never written; and [status] reads "completed" when the run is at
    [END] and is the status of the input at every other stage, also after a
    failure. *)
Theorem job_state_bookkeeping
  (input : IndexingState) (w0 w : World) (j : Job) :
  reachable download_from_drive pdf_loader_load enrich_with_vision
            split_documents embedding_function
            (w0, ainvoke input) (w, j) ->
  file_id (state j) = file_id input /\ user_id (state j) = user_id input /\
  file_type (state j) = file_type input /\ error (state j) = error input /\
  status (state j) = match stage j with
                     | Completed => "completed"
                     | _ => status input
                     end.
Proof.
  intros Hreach.
  apply (reachable_invariant (bookkeeping input) (w0, ainvoke input)
           ltac:(unfold bookkeeping; cbn; auto) (bookkeeping_step input)
           (w, j) Hreach).
Qed.

Variables fid uid ftype : string.
Variable w0 : World.

(** What the state of the job records at each stage: how far the chain
    download, load, enrich, split has come, under which key the result is,
    and what the vector store holds. *)
Definition downloaded (path : string) : Prop :=
  download_from_drive fid = Ok path.

Definition loaded (docs : list Document) : Prop :=
  exists path, downloaded path /\ pdf_loader_load path = Ok docs.

Definition enriched (docs : list Document) : Prop :=
  exists raw, loaded raw /\ enrich_all' raw = Ok docs.

Definition chunked (cs : list Document) : Prop :=
  exists docs, enriched docs /\ split_documents 500 100 docs = Ok cs.

Definition indexed (w : World) (cs : list Document) : Prop :=
  exists es,
    entries w (Chroma (String.append "user_" uid))
    = entries w0 (Chroma (String.append "user_" uid)) ++ es /\
    map entry_doc es = cs /\
    forall other, other <> Chroma (String.append "user_" uid) ->
                  entries w other = entries w0 other.

Definition run_invariant (c : World * Job) : Prop :=
  file_id (state c.2) = fid /\ user_id (state c.2) = uid /\
  file_type (state c.2) = ftype /\ error (state c.2) = None /\
  match stage c.2 with
  | Pending | Running download | Failed =>
      c.1 = w0 /\ status (state c.2) = "pending"
  | Running load =>
      c.1 = w0 /\ status (state c.2) = "pending" /\
      exists path, downloaded path /\ file_path (state c.2) = Some path
  | Running enrich =>
      c.1 = w0 /\ status (state c.2) = "pending" /\
      exists docs, loaded docs /\ documents (state c.2) = Some docs
  | Running chunk =>
      c.1 = w0 /\ status (state c.2) = "pending" /\
      exists docs, enriched docs /\ documents (state c.2) = Some docs
  | Running embed =>
      c.1 = w0 /\ status (state c.2) = "pending" /\
      exists cs, chunked cs /\ chunks (state c.2) = Some cs
  | Completed =>
      status (state c.2) = "completed" /\
      exists cs, chunked cs /\ chunks (state c.2) = Some cs /\ indexed c.1 cs
  end.

Lemma run_invariant_step (c c' : World * Job) :
  run_invariant c -> step' c = Some c' -> run_invariant c'.
Proof.
  destruct c as [w j], c' as [w' j']. unfold run_invariant. simpl.
  intros (Hfid & Huid & Hft & Herr & Hstage) Hstep.
  subst step'. unfold step in Hstep.
  destruct (stage j) as [| n | |] eqn:Hs; try discriminate.
  - injection Hstep as <- <-. simpl. auto.
  - destruct (node_function _ _ _ _ _ n w (state j)) as [[w1 st1] | e] eqn:Hnode;
      [| injection Hstep as <- <-; simpl;
         repeat (split; [assumption |]); destruct n; tauto].
    destruct n; vm_compute in Hstep; injection Hstep as <- <-; simpl;
      revert Hfid Huid Hft Herr Hstage; run_node Hnode;
      intros Hfid Huid Hft Herr Hstage; simpl.
    + destruct Hstage as [-> Hst]. repeat (split; [assumption |]).
      split; [reflexivity |]. split; [exact Hst |].
      eexists. split; [| reflexivity]. unfold downloaded. now rewrite <- Hfid.
    + destruct Hstage as (-> & Hst & path & Hdl & Hpath).
      repeat (split; [assumption |]). split; [reflexivity |]. split; [exact Hst |].
      eexists. split; [| reflexivity]. exists path. split; [exact Hdl |].
      rewrite Hpath in *. unfold state_getitem in *. now simplify_eq.
    + destruct Hstage as (-> & Hst & docs & Hld & Hdocs).
      repeat (split; [assumption |]). split; [reflexivity |]. split; [exact Hst |].
      eexists. split; [| reflexivity]. exists docs. split; [exact Hld |].
      rewrite Hdocs in *. unfold state_getitem in *. now simplify_eq.
    + destruct Hstage as (-> & Hst & docs & Hen & Hdocs).
      repeat (split; [assumption |]). split; [reflexivity |]. split; [exact Hst |].
      eexists. split; [| reflexivity]. exists docs. split; [exact Hen |].
      rewrite Hdocs in *. unfold state_getitem in *. now simplify_eq.
    + destruct Hstage as (-> & Hst & cs & Hch & Hcs).
      repeat (split; [assumption |]). split; [reflexivity |].
      exists cs. split; [exact Hch |]. split; [exact Hcs |].
      rewrite Hcs in *. unfold state_getitem in *. simplify_eq.
      match goal with
      | Hadd : add_documents _ _ _ _ = Ok _ |- _ =>
          unfold user_collection in Hadd; rewrite Huid in Hadd;
          destruct (add_documents_appends _ _ _ _ _ Hadd) as (es & He & Hd & _)
      end.
      exists es. split; [exact He |]. split; [exact Hd |].
      intros other Hne.
      match goal with
      | Hadd : add_documents _ _ _ _ = Ok _ |- _ =>
          exact (add_documents_other _ _ _ _ _ _ Hne Hadd)
      end.
Qed.

Lemma run_invariant_holds (c : World * Job) :
  reachable' (w0, new_job fid uid ftype) c -> run_invariant c.
Proof.
  apply (reachable_invariant run_invariant (w0, new_job fid uid ftype));
    [| exact run_invariant_step].
  unfold run_invariant. simpl. repeat split.
Qed.

Lemma enrich_all_ok (raw docs : list Document) :
  enrich_all' raw = Ok docs ->
  Forall2 (fun d d' => enrich_with_vision d = Ok d') raw docs.
Proof.
  subst enrich_all'. revert docs. induction raw as [| d raw IH]; intros docs Hrun;
    simpl in Hrun.
  - injection Hrun as <-. constructor.
  - destruct (enrich_with_vision d) as [d' |] eqn:Hd; simpl in Hrun; [| discriminate].
    destruct (enrich_all enrich_with_vision raw) as [rest |]; simpl in Hrun;
      [| discriminate].
    injection Hrun as <-. constructor; [exact Hd | now apply IH].
Qed.

Lemma enrich_all_total (raw : list Document) :
  (forall d, exists d', enrich_with_vision d = Ok d') ->
  exists docs, enrich_all' raw = Ok docs.
Proof.
  intros Htotal. subst enrich_all'. induction raw as [| d raw [rest Hrest]]; simpl.
  - eauto.
  - destruct (Htotal d) as [d' Hd]. rewrite Hd. simpl. rewrite Hrest. simpl. eauto.
Qed.

Lemma embed_documents_total (docs : list Document) :
  (forall text, exists v, embedding_function text = Ok v) ->
  exists vs, embed_documents embedding_function docs = Ok vs.
Proof.
  intros Htotal. induction docs as [| d docs [vs Hvs]]; simpl.
  - eauto.
  - destruct (Htotal (page_content d)) as [v Hv]. rewrite Hv. simpl.
    rewrite Hvs. simpl. eauto.
Qed.

(** X15. Until a job completes, the vector store is what it was when the
    job started: no node before the last writes to it, and a job that
    fails, at whatever stage, leaves no chunk behind. *)
Theorem unfinished_job_leaves_store_untouched (w : World) (j : Job) :
  reachable download_from_drive pdf_loader_load enrich_with_vision
            split_documents embedding_function
            (w0, new_job fid uid ftype) (w, j) ->
  stage j <> Completed ->
  w = w0.
Proof.
  intros Hreach Hnot.
  destruct (run_invariant_holds (w, j) Hreach) as (_ & _ & _ & _ & Hstage).
  simpl in Hstage.
  destruct (stage j) as [| [] | |]; try tauto; now contradiction Hnot.
Qed.

(** X17. What a completed job has done: the file was downloaded, the
    download loaded, every loaded document enriched, the enriched documents
    split with chunk size 500 and overlap 100, and the chunks of the state
    are the splitter's output; the collection of the job's user holds what
    it held before followed by one entry per chunk, in chunk order, and
    every other collection or namespace is as before. *)
Theorem completed_job_indexed_its_chunks (w : World) (j : Job) :
  reachable download_from_drive pdf_loader_load enrich_with_vision
            split_documents embedding_function
            (w0, new_job fid uid ftype) (w, j) ->
  stage j = Completed ->
  exists path raw docs cs es,
    download_from_drive fid = Ok path /\
    pdf_loader_load path = Ok raw /\
    Forall2 (fun d d' => enrich_with_vision d = Ok d') raw docs /\
    split_documents 500 100 docs = Ok cs /\
    chunks (state j) = Some cs /\
    entries w (Chroma (String.append "user_" uid))
    = entries w0 (Chroma (String.append "user_" uid)) ++ es /\
    map entry_doc es = cs /\
    forall other, other <> Chroma (String.append "user_" uid) ->
                  entries w other = entries w0 other.
Proof.
  intros Hreach Hdone.
  destruct (run_invariant_holds (w, j) Hreach) as (_ & _ & _ & _ & Hstage).
  simpl in Hstage. rewrite Hdone in Hstage.
  destruct Hstage as (_ & cs & Hch & Hcs & es & He & Hd & Hother).
  destruct Hch as (docs & (raw & (path & Hdl & Hld) & Hen) & Hsplit).
  exists path, raw, docs, cs, es.
  split; [exact Hdl |]. split; [exact Hld |].
  split; [now apply enrich_all_ok |]. auto.
Qed.

(** X18. Enrichment is all or nothing for the job: when the vision
    enrichment raises on one of the loaded documents, the job never
    completes and the vector store stays as it was. *)
Theorem job_never_completes_when_enrichment_fails
  (path : string) (raw : list Document) (d : Document) (e : exception)
  (w : World) (j : Job) :
  download_from_drive fid = Ok path ->
  pdf_loader_load path = Ok raw ->
  d ∈ raw ->
  enrich_with_vision d = Raise e ->
  reachable download_from_drive pdf_loader_load enrich_with_vision
            split_documents embedding_function
            (w0, new_job fid uid ftype) (w, j) ->
  stage j <> Completed /\ w = w0.
Proof.
  intros Hdl Hld Hin Hfail Hreach.
  destruct (run_invariant_holds (w, j) Hreach) as (_ & _ & _ & _ & Hstage).
  simpl in Hstage.
  assert (Hnot : stage j <> Completed).
  { intros Hdone. rewrite Hdone in Hstage.
    destruct Hstage as (_ & cs & Hch & _).
    destruct Hch as (docs & (raw' & (path' & Hdl' & Hld') & Hen) & _).
    unfold downloaded in Hdl'. rewrite Hdl in Hdl'. injection Hdl' as <-.
    rewrite Hld in Hld'. injection Hld' as <-.
    apply list_elem_of_lookup in Hin as [k Hk].
    destruct (Forall2_lookup_l _ _ _ _ _ (enrich_all_ok _ _ Hen) Hk) as (d' & _ & Hd').
    rewrite Hfail in Hd'. discriminate Hd'. }
  split; [exact Hnot |].
  destruct (stage j) as [| [] | |]; try tauto; now contradiction Hnot.
Qed.

Lemma node_succeeds (w : World) (j : Job) (n : Node) :
  (forall x, exists y, download_from_drive x = Ok y) ->
  (forall x, exists y, pdf_loader_load x = Ok y) ->
  (forall x, exists y, enrich_with_vision x = Ok y) ->
  (forall size overlap x, exists y, split_documents size overlap x = Ok y) ->
  (forall x, exists y, embedding_function x = Ok y) ->
  run_invariant (w, j) -> stage j = Running n ->
  exists w1 st1,
    node_function download_from_drive pdf_loader_load enrich_with_vision
                  split_documents embedding_function n w (state j) = Ok (w1, st1).
Proof.
  intros Hdl Hld Hen Hsp Hem (_ & _ & _ & _ & Hstage) Hs. simpl in Hstage.
  rewrite Hs in Hstage. destruct n; simpl.
  - unfold download_node. destruct (Hdl (file_id (state j))) as [p Hp].
    rewrite Hp. simpl. eauto.
  - destruct Hstage as (_ & _ & p & _ & Hp). unfold load_node. rewrite Hp. simpl.
    destruct (Hld p) as [docs Hdocs]. rewrite Hdocs. simpl. eauto.
  - destruct Hstage as (_ & _ & docs & _ & Hdocs). unfold enrich_node.
    rewrite Hdocs. simpl.
    destruct (enrich_all_total docs Hen) as [en Hen']. subst enrich_all'.
    rewrite Hen'. simpl. eauto.
  - destruct Hstage as (_ & _ & docs & _ & Hdocs). unfold chunk_node.
    rewrite Hdocs. simpl.
    destruct (Hsp 500 100 docs) as [cs Hcs]. rewrite Hcs. simpl. eauto.
  - destruct Hstage as (_ & _ & cs & _ & Hcs). unfold embed_node. cbv zeta.
    rewrite Hcs. simpl. unfold add_documents.
    destruct (embed_documents_total cs Hem) as [vs Hvs]. rewrite Hvs. simpl. eauto.
Qed.

(** X19. When every external call answers, the job completes: the graph
    order gives every node the key it reads, so no node raises, and within
    six steps the job is at [END] with status "completed" and progress
    1.0. *)
Theorem job_completes_when_externals_answer :
  (forall x, exists y, download_from_drive x = Ok y) ->
  (forall x, exists y, pdf_loader_load x = Ok y) ->
  (forall x, exists y, enrich_with_vision x = Ok y) ->
  (forall size overlap x, exists y, split_documents size overlap x = Ok y) ->
  (forall x, exists y, embedding_function x = Ok y) ->
  exists n w j,
    (n <= 6)%nat /\
    steps download_from_drive pdf_loader_load enrich_with_vision
          split_documents embedding_function n (w0, new_job fid uid ftype)
    = Some (w, j) /\
    stage j = Completed /\ status (state j) = "completed" /\
    progress (state j) = 1.0%Q.
Proof.
  intros Hdl Hld Hen Hsp Hem.
  destruct (run_terminates 6 w0 (new_job fid uid ftype)) as (n & w & j & Hn & Hrun & Hterm & _);
    [simpl; lia |].
  exists n, w, j. split; [exact Hn |]. split; [exact Hrun |].
  assert (Hreach : reachable' (w0, new_job fid uid ftype) (w, j)) by (now exists n).
  assert (Hgood : run_invariant (w, j) /\ stage j <> Failed).
  { apply (reachable_invariant
             (fun c => run_invariant c /\ stage c.2 <> Failed)
             (w0, new_job fid uid ftype)); [| | exact Hreach].
    - split; [| discriminate]. unfold run_invariant. simpl. repeat split.
    - intros [wa ja] [wb jb] [Hinv Hnf] Hstep.
      split; [exact (run_invariant_step _ _ Hinv Hstep) |].
      subst step'. unfold step in Hstep. simpl.
      destruct (stage ja) as [| k | |] eqn:Hs; try discriminate.
      + injection Hstep as <- <-. discriminate.
      + destruct (node_succeeds wa ja k Hdl Hld Hen Hsp Hem Hinv Hs)
          as (w1 & st1 & Hnode).
        rewrite Hnode in Hstep.
        destruct k; vm_compute in Hstep; injection Hstep as <- <-; discriminate. }
  destruct Hgood as [Hinv Hnf].
  assert (Hdone : stage j = Completed)
    by (destruct (stage j); try discriminate; [reflexivity | now contradiction Hnf]).
  split; [exact Hdone |].
  destruct Hinv as (_ & _ & _ & _ & Hstage). simpl in Hstage. rewrite Hdone in Hstage.
  split; [tauto |].
  pose proof (steps_keep_consistent download_from_drive pdf_loader_load
                enrich_with_vision split_documents embedding_function
                n (w0, new_job fid uid ftype) (w, j) eq_refl Hrun) as Hcons.
  unfold consistent in Hcons. simpl in Hcons. now rewrite Hdone in Hcons.
Qed.

End Runs.

(** Concrete runs: the demo externals to the end, and a run whose
    enrichment is rate limited. *)
Definition demo_start : World * Job := (empty_world, new_job "abc123" "user_xyz" "pdf").

Definition demo_final : World * Job :=
  default demo_start
    (steps demo_download demo_load demo_enrich demo_split demo_embed 6 demo_start).

Definition failing_enrich (d : Document) : result Document :=
  Raise (External "RateLimited").

Definition demo_failed : World * Job :=
  default demo_start
    (steps demo_download demo_load failing_enrich demo_split demo_embed 4 demo_start).

Example demo_failed_stage : stage demo_failed.2 = Failed.
Proof. vm_compute. reflexivity. Qed.

Lemma unfinished_job_leaves_store_untouched_witness :
  demo_failed.1 = empty_world.
Proof.
  apply (unfinished_job_leaves_store_untouched
           demo_download demo_load failing_enrich demo_split demo_embed
           "abc123" "user_xyz" "pdf" empty_world demo_failed.1 demo_failed.2).
  - exists 4%nat. vm_compute. reflexivity.
  - vm_compute. discriminate.
Defined.

Lemma job_state_bookkeeping_witness :
  file_id (state demo_failed.2) = file_id (initial_state "abc123" "user_xyz" "pdf") /\
  user_id (state demo_failed.2) = user_id (initial_state "abc123" "user_xyz" "pdf") /\
  file_type (state demo_failed.2)
  = file_type (initial_state "abc123" "user_xyz" "pdf") /\
  error (state demo_failed.2) = error (initial_state "abc123" "user_xyz" "pdf") /\
  status (state demo_failed.2)
  = match stage demo_failed.2 with
    | Completed => "completed"
    | _ => status (initial_state "abc123" "user_xyz" "pdf")
    end.
Proof.
  apply (job_state_bookkeeping
           demo_download demo_load failing_enrich demo_split demo_embed
           (initial_state "abc123" "user_xyz" "pdf")
           empty_world demo_failed.1 demo_failed.2).
  exists 4%nat. vm_compute. reflexivity.
Defined.

(** The second call of the execution listing runs on a state whose status
    is "completed" already: the job is at Downloading with that status. *)
Example second_call_status :
  (fun c => (stage c.2, status (state c.2)))
    <$> steps demo_download demo_load demo_enrich demo_split demo_embed 1
          (demo_final.1, ainvoke (state demo_final.2))
  = Some (Downloading, "completed").
Proof. vm_compute. reflexivity. Qed.

Lemma completed_job_indexed_its_chunks_witness :
  exists path raw docs cs es,
    demo_download "abc123" = Ok path /\
    demo_load path = Ok raw /\
    Forall2 (fun d d' => demo_enrich d = Ok d') raw docs /\
    demo_split 500 100 docs = Ok cs /\
    chunks (state demo_final.2) = Some cs /\
    entries demo_final.1 (Chroma (String.append "user_" "user_xyz"))
    = entries empty_world (Chroma (String.append "user_" "user_xyz")) ++ es /\
    map entry_doc es = cs /\
    forall other, other <> Chroma (String.append "user_" "user_xyz") ->
                  entries demo_final.1 other = entries empty_world other.
Proof.
  apply (completed_job_indexed_its_chunks
           demo_download demo_load demo_enrich demo_split demo_embed
           "abc123" "user_xyz" "pdf" empty_world demo_final.1 demo_final.2).
  - exists 6%nat. vm_compute. reflexivity.
  - vm_compute. reflexivity.
Defined.

Lemma job_never_completes_when_enrichment_fails_witness :
  stage demo_failed.2 <> Completed /\ demo_failed.1 = empty_world.
Proof.
  apply (job_never_completes_when_enrichment_fails
           demo_download demo_load failing_enrich demo_split demo_embed
           "abc123" "user_xyz" "pdf" empty_world
           "/tmp/abc123" [mkDocument "See Figure 1 for backprop." ∅]
           (mkDocument "See Figure 1 for backprop." ∅) (External "RateLimited")
           demo_failed.1 demo_failed.2).
  - reflexivity.
  - reflexivity.
  - left.
  - reflexivity.
  - exists 4%nat. vm_compute. reflexivity.
Defined.

Lemma job_completes_when_externals_answer_witness :
  exists n w j,
    (n <= 6)%nat /\
    steps demo_download demo_load demo_enrich demo_split demo_embed n
          (empty_world, new_job "abc123" "user_xyz" "pdf")
    = Some (w, j) /\
    stage j = Completed /\ status (state j) = "completed" /\
    progress (state j) = 1.0%Q.
Proof.
  apply (job_completes_when_externals_answer
           demo_download demo_load demo_enrich demo_split demo_embed
           "abc123" "user_xyz" "pdf" empty_world).
  - intros x. eexists. reflexivity.
  - intros x. eexists. reflexivity.
  - intros x. eexists. reflexivity.
  - intros size overlap x. eexists. reflexivity.
  - intros x. eexists. reflexivity.
Defined.

End WorkflowRuns.

